(** * Tab Tools: the tab organiser, the URL sanitiser, the session store and
    the snapshot codec, embedded from [popup.js] and [background.js].

    JavaScript strings are modelled by [string], read as sequences of
    UTF-16 code units below 256.  Tab ids are the host's integers.  Host
    interfaces ([chrome.*], the [URL] constructor) are parameters of the
    definitions that call them. *)

From Stdlib Require Import Ascii String List ZArith Lia Bool Permutation Sorted.
From stdpp Require Import base option list gmap strings pretty sorting.
From Equations.Prop Require Import Equations Logic.

Import ListNotations.
Local Open Scope string_scope.
Local Open Scope list_scope.
Local Open Scope Z_scope.

(* ===================================================================== *)
(** * Part I: the program *)
(* ===================================================================== *)

(** ** JavaScript strings and values *)

Module Js.

(** Code unit of a character. *)
Definition code (c : ascii) : N := N_of_ascii c.

Definition between (lo hi : N) (c : ascii) : bool :=
  ((lo <=? code c) && (code c <=? hi))%N.

(** [String.prototype.toLowerCase] on one code unit below 256: A-Z, and
    the Latin-1 capitals U+00C0..U+00DE except the multiplication sign. *)
Definition lower_char (c : ascii) : ascii :=
  if between 65 90 c then ascii_of_N (code c + 32)
  else if between 192 222 c && negb (code c =? 215)%N
       then ascii_of_N (code c + 32)
       else c.

Fixpoint toLowerCase (s : string) : string :=
  match s with
  | EmptyString => EmptyString
  | String c s' => String (lower_char c) (toLowerCase s')
  end.

(** Template-literal rendering of a property that may be absent:
    [`${undefined}`] is the text [undefined]. *)
Definition template (v : option string) : string :=
  match v with
  | Some s => s
  | None => "undefined"
  end.


(** A value as [JSON.parse] yields it for one member of the parsed
    object; [Undefined] is what reading an absent member gives.  The
    elements of an array are kept at the type [A] at which the importer
    reads them.  Numbers are integers here: a fractional number behaves
    like any non-zero one in every test below. *)
Inductive value (A : Type) : Type :=
  | Undefined
  | Null
  | Boolean (b : bool)
  | Number (n : Z)
  | Str (s : string)
  | Array (elements : list A)
  | Object.
Arguments Undefined {A}.
Arguments Null {A}.
Arguments Boolean {A} b.
Arguments Number {A} n.
Arguments Str {A} s.
Arguments Array {A} elements.
Arguments Object {A}.

(** ToBoolean. *)
Definition truthy {A} (v : value A) : bool :=
  match v with
  | Undefined | Null => false
  | Boolean b => b
  | Number n => negb (n =? 0)
  | Str s => negb (String.eqb s "")
  | Array _ | Object => true
  end.

Definition isArray {A} (v : value A) : bool :=
  match v with
  | Array _ => true
  | _ => false
  end.

End Js.

(** ** The host's URL API *)

Module Url.

(** *** Characters and strings *)

Definition isChar (c d : ascii) : bool := (Js.code c =? Js.code d)%N.

(** The double quote, U+0022. *)
Definition quote : ascii := "034"%char.

Definition oneOf (set : string) (c : ascii) : bool :=
  existsb (isChar c) (list_ascii_of_string set).

Definition isDigit (c : ascii) : bool := Js.between 48 57 c.
Definition isAlpha (c : ascii) : bool := Js.between 65 90 c || Js.between 97 122 c.
Definition isAlnum (c : ascii) : bool := isAlpha c || isDigit c.
Definition isHex (c : ascii) : bool :=
  isDigit c || Js.between 65 70 c || Js.between 97 102 c.

Fixpoint all (p : ascii -> bool) (s : string) : bool :=
  match s with
  | EmptyString => true
  | String c s' => p c && all p s'
  end.

Fixpoint any (p : ascii -> bool) (s : string) : bool :=
  match s with
  | EmptyString => false
  | String c s' => p c || any p s'
  end.

(** The characters of [s] that satisfy [p]. *)
Fixpoint keep (p : ascii -> bool) (s : string) : string :=
  match s with
  | EmptyString => EmptyString
  | String c s' => if p c then String c (keep p s') else keep p s'
  end.

(** The longest prefix of characters satisfying [p], and the rest. *)
Fixpoint span (p : ascii -> bool) (s : string) : string * string :=
  match s with
  | EmptyString => (EmptyString, EmptyString)
  | String c s' =>
      if p c then let '(a, b) := span p s' in (String c a, b)
      else (EmptyString, s)
  end.

Fixpoint dropWhile (p : ascii -> bool) (s : string) : string :=
  match s with
  | EmptyString => EmptyString
  | String c s' => if p c then dropWhile p s' else s
  end.

(** [String.prototype.split] on one-character separators: the pieces
    between separators, at least one. *)
Fixpoint splitOn (sep : ascii -> bool) (s : string) : list string :=
  match s with
  | EmptyString => [EmptyString]
  | String c s' =>
      if sep c then EmptyString :: splitOn sep s'
      else match splitOn sep s' with
           | piece :: pieces => String c piece :: pieces
           | [] => [String c EmptyString]
           end
  end.

(** [Array.prototype.join]. *)
Definition join (sep : string) (pieces : list string) : string :=
  String.concat sep pieces.

Definition reverse (s : string) : string :=
  string_of_list_ascii (rev (list_ascii_of_string s)).

(** *** URL records and their serialisation (WHATWG URL, section 4.5) *)

Inductive Path : Type :=
  | Opaque (text : string)
  | Segments (segments : list string).

Record URL : Type := mkURL {
  scheme : string;
  username : string;
  password : string;
  host : option string;
  port : option N;
  path : Path;
  query : option string;
  fragment : option string
}.

Definition serializePath (p : Path) : string :=
  match p with
  | Opaque text => text
  | Segments segments => String.concat "" (map (fun seg => "/" +:+ seg) segments)
  end.

Definition protocol (u : URL) : string := scheme u +:+ ":".
Definition hostname (u : URL) : string := default "" (host u).
Definition pathname (u : URL) : string := serializePath (path u).

(** The URL serializer: [href], [toString()]. *)
Definition toString (u : URL) : string :=
  protocol u
  +:+ match host u with
      | Some h =>
          "//"
          +:+ (if String.eqb (username u) "" && String.eqb (password u) "" then ""
               else username u
                    +:+ (if String.eqb (password u) "" then "" else ":" +:+ password u)
                    +:+ "@")
          +:+ h
          +:+ match port u with
              | Some p => ":" +:+ pretty p
              | None => ""
              end
      | None =>
          match path u with
          | Segments ("" :: _ :: _) => "/."
          | _ => ""
          end
      end
  +:+ pathname u
  +:+ match query u with Some q => "?" +:+ q | None => "" end
  +:+ match fragment u with Some f => "#" +:+ f | None => "" end.

(** *** A model of the basic URL parser without a base URL

    It follows the states of the WHATWG parser for inputs of the shapes
    [scheme://host[:port][/path][?query][#fragment]], [scheme:/path] and
    [scheme:opaque].  It answers [None] where the standard fails, and
    also, short of modelling them, on credentials, on IPv6 and IPv4
    literals, on percent-escapes, [xn--] labels and code units above 127
    in the host of a special scheme, and on the [file] scheme. *)

Definition isC0OrSpace (c : ascii) : bool := (Js.code c <=? 32)%N.
Definition isTabOrNewline (c : ascii) : bool :=
  (Js.code c =? 9)%N || (Js.code c =? 10)%N || (Js.code c =? 13)%N.

Definition trim (s : string) : string :=
  reverse (dropWhile isC0OrSpace (reverse (dropWhile isC0OrSpace s))).

Definition isSpecial (scheme : string) : bool :=
  bool_decide (scheme ∈ ["http"; "https"; "ftp"; "ws"; "wss"; "file"]).

Definition defaultPort (scheme : string) : option N :=
  if String.eqb scheme "http" || String.eqb scheme "ws" then Some 80%N
  else if String.eqb scheme "https" || String.eqb scheme "wss" then Some 443%N
  else if String.eqb scheme "ftp" then Some 21%N
  else None.

(** Percent-encode sets, on code units. *)
Definition inC0ControlSet (c : ascii) : bool :=
  (Js.code c <=? 31)%N || (126 <? Js.code c)%N.
Definition inFragmentSet (c : ascii) : bool :=
  inC0ControlSet c || isChar quote c || oneOf " <>`" c.
Definition inQuerySet (c : ascii) : bool :=
  inC0ControlSet c || isChar quote c || oneOf " #<>" c.
Definition inSpecialQuerySet (c : ascii) : bool :=
  inQuerySet c || oneOf "'" c.
Definition inPathSet (c : ascii) : bool :=
  inQuerySet c || oneOf "?^`{}" c.

Definition hexDigit (n : N) : ascii :=
  if (n <? 10)%N then ascii_of_N (48 + n) else ascii_of_N (55 + n).

Definition percentByte (b : N) : string :=
  String "%" (String (hexDigit (b / 16)) (String (hexDigit (b mod 16)) "")).

(** UTF-8 percent-encoding of one code unit below 256. *)
Definition percentEncode (set : ascii -> bool) (c : ascii) : string :=
  if set c then
    if (Js.code c <? 128)%N then percentByte (Js.code c)
    else percentByte (192 + Js.code c / 64) +:+ percentByte (128 + Js.code c mod 64)
  else String c "".

Fixpoint encode (set : ascii -> bool) (s : string) : string :=
  match s with
  | EmptyString => EmptyString
  | String c s' => percentEncode set c +:+ encode set s'
  end.

(** Scheme state: a letter, then letters, digits, [+], [-], [.] up to
    the colon, lower-cased. *)
Definition parseScheme (s : string) : option (string * string) :=
  match s with
  | String c _ =>
      if isAlpha c then
        match span (fun c => isAlnum c || oneOf "+-." c) s with
        | (name, String ":" rest) => Some (Js.toLowerCase name, rest)
        | _ => None
        end
      else None
  | EmptyString => None
  end.

Definition isForbiddenHost (c : ascii) : bool :=
  (Js.code c =? 0)%N || isTabOrNewline c || oneOf " #/:<>?@[\]^|" c.
Definition isForbiddenDomain (c : ascii) : bool :=
  isForbiddenHost c || (Js.code c <=? 31)%N || oneOf "%" c || (Js.code c =? 127)%N.

(** Whether the host ends in a number (and is parsed as IPv4). *)
Definition endsInNumber (h : string) : bool :=
  let labels := rev (splitOn (isChar ".") h) in
  let labels := match labels with
                | "" :: (_ :: _) as more => more
                | _ => labels
                end in
  match labels with
  | last :: _ =>
      negb (String.eqb last "") && all isDigit last
      || match last with
         | String "0" (String x digits) => oneOf "xX" x && all isHex digits
         | _ => false
         end
  | [] => false
  end.

(** Whether a label of the host is in the [xn--] form. *)
Definition hasPunycodeLabel (h : string) : bool :=
  existsb (fun label => String.prefix "xn--" label) (splitOn (isChar ".") h).

(** Host parsing. *)
Definition parseHost (special : bool) (h : string) : option string :=
  if any (oneOf "[") h then None
  else if special then
    if any (fun c => oneOf "%" c || (127 <? Js.code c)%N) h then None
    else
      let domain := Js.toLowerCase h in
      if String.eqb domain "" || any isForbiddenDomain domain
         || endsInNumber domain || hasPunycodeLabel domain
      then None
      else Some domain
  else
    if any isForbiddenHost h then None
    else Some (encode inC0ControlSet h).

(** Port state. *)
Definition parsePort (scheme digits : string) : option (option N) :=
  if String.eqb digits "" then Some None
  else if all isDigit digits then
    let n := fold_left (fun n c => (10 * n + (Js.code c - 48))%N)
                       (list_ascii_of_string digits) 0%N in
    if (65535 <? n)%N then None
    else if bool_decide (defaultPort scheme = Some n) then Some None
    else Some (Some n)
  else None.

Definition isSingleDot (seg : string) : bool :=
  bool_decide (Js.toLowerCase seg ∈ ["."; "%2e"]).
Definition isDoubleDot (seg : string) : bool :=
  bool_decide (Js.toLowerCase seg ∈ [".."; ".%2e"; "%2e."; "%2e%2e"]).

(** Path state, one segment at a time; [path] is kept reversed. *)
Fixpoint parseSegments (segments : list string) (path : list string) : list string :=
  match segments with
  | [] => rev path
  | seg :: more =>
      let buffer := encode inPathSet seg in
      let isLast := match more with [] => true | _ => false end in
      let path :=
        if isDoubleDot buffer then
          let shortened := tail path in
          if isLast then "" :: shortened else shortened
        else if isSingleDot buffer then
          if isLast then "" :: path else path
        else buffer :: path in
      parseSegments more path
  end.

Definition isSlash (special : bool) (c : ascii) : bool :=
  oneOf "/" c || (special && oneOf "\" c).

(** Query and fragment states, on what follows the path. *)
Definition parseQueryFragment (special : bool) (rest : string)
  : option string * option string :=
  let '(beforeHash, hashed) := span (fun c => negb (oneOf "#" c)) rest in
  let q := match beforeHash with
           | String "?" text =>
               Some (encode (if special then inSpecialQuerySet else inQuerySet) text)
           | _ => None
           end in
  let f := match hashed with
           | String "#" text => Some (encode inFragmentSet text)
           | _ => None
           end in
  (q, f).

(** Authority, path start and path states for a URL with a host. *)
Definition parseHierarchical (scheme : string) (special : bool) (s : string)
  : option URL :=
  let '(authority, rest) :=
    span (fun c => negb (isSlash special c || oneOf "?#" c)) s in
  if any (oneOf "@") authority then None
  else
    let '(hostText, portText) := span (fun c => negb (oneOf ":[" c)) authority in
    match parseHost special hostText with
    | None => None
    | Some h =>
        let portResult :=
          match portText with
          | EmptyString => Some None
          | String ":" digits =>
              if String.eqb hostText "" then None else parsePort scheme digits
          | _ => None
          end in
        match portResult with
        | None => None
        | Some p =>
            let '(pathText, tail) := span (fun c => negb (oneOf "?#" c)) rest in
            let segments :=
              match pathText with
              | EmptyString => if special then [""] else []
              | String _ afterSlash => splitOn (isSlash special) afterSlash
              end in
            let '(q, f) := parseQueryFragment special tail in
            Some (mkURL scheme "" "" (Some h) p
                        (Segments (parseSegments segments [])) q f)
        end
    end.

Definition parse (input : string) : option URL :=
  let s := keep (fun c => negb (isTabOrNewline c)) (trim input) in
  match parseScheme s with
  | None => None
  | Some (scheme, rest) =>
      if String.eqb scheme "file" then None
      else if isSpecial scheme then
        parseHierarchical scheme true (dropWhile (isSlash true) rest)
      else
        match rest with
        | String "/" (String "/" afterSlashes) =>
            parseHierarchical scheme false afterSlashes
        | String "/" afterSlash =>
            let '(pathText, tail) := span (fun c => negb (oneOf "?#" c)) afterSlash in
            let '(q, f) := parseQueryFragment false tail in
            Some (mkURL scheme "" "" None None
                        (Segments (parseSegments (splitOn (isSlash false) pathText) []))
                        q f)
        | _ =>
            let '(pathText, tail) := span (fun c => negb (oneOf "?#" c)) rest in
            let '(q, f) := parseQueryFragment false tail in
            Some (mkURL scheme "" "" None None
                        (Opaque (encode inC0ControlSet pathText)) q f)
        end
  end.

End Url.

(** ** UrlSanitizer ([isValidUrl], [sanitizeUrl], [extractUrls], popup.js) *)

Module UrlSanitizer.

(** [['http:', 'https:', 'ftp:'].includes(urlObj.protocol)]. *)
Definition allowedProtocol (protocol : string) : bool :=
  bool_decide (protocol ∈ ["http:"; "https:"; "ftp:"]).

(** The character class of the two patterns that name the characters
    [<], [>], the quotes and the parentheses. *)
Definition suspicious (c : ascii) : bool :=
  Url.oneOf "<>'()" c || Url.isChar Url.quote c.

(** One label of the hostname pattern:
    [[a-zA-Z0-9]([a-zA-Z0-9-]{0,61}[a-zA-Z0-9])?]. *)
Definition isLabel (l : string) : bool :=
  match l with
  | EmptyString => false
  | String c _ =>
      Url.isAlnum c
      && (String.length l <=? 63)%nat
      && Url.all (fun c => Url.isAlnum c || Url.oneOf "-" c) l
      && match Url.reverse l with
         | String d _ => Url.isAlnum d
         | EmptyString => false
         end
  end.

(** The last label: [[a-zA-Z]{2,}]. *)
Definition isTopLevel (l : string) : bool :=
  (2 <=? String.length l)%nat && Url.all Url.isAlpha l.

(** The hostname pattern of [isValidUrl], anchored at both ends: labels
    separated by dots, at least one before the last. *)
Definition hostnamePattern (hostname : string) : bool :=
  match rev (Url.splitOn (Url.isChar ".") hostname) with
  | top :: (_ :: _) as labels => isTopLevel top && forallb isLabel (tail labels)
  | _ => false
  end.

(** [.replace(/<[^>]*>/g, '')]: every [<] that has a [>] after it is
    removed with the text up to the first such [>].  The function returns
    the replaced text of [s] and, when [s] holds a [>], the replaced text
    of what follows the first one. *)
Fixpoint stripTagsFrom (s : string) : string * option string :=
  match s with
  | EmptyString => (EmptyString, None)
  | String c s' =>
      let '(out, afterGt) := stripTagsFrom s' in
      (if Url.isChar "<" c
       then match afterGt with
            | Some remainder => remainder
            | None => String c out
            end
       else String c out,
       if Url.isChar ">" c then Some out else afterGt)
  end.

Definition stripTags (s : string) : string := (stripTagsFrom s).1.

(** The second [replace] of [sanitizeUrl]: every suspicious character is
    removed. *)
Definition stripSuspicious (s : string) : string :=
  Url.keep (fun c => negb (suspicious c)) s.

(** [\s] on code units below 256. *)
Definition isWhitespace (c : ascii) : bool :=
  Js.between 9 13 c || (Js.code c =? 32)%N || (Js.code c =? 160)%N.

(** The line terminators, which [.] does not match. *)
Definition isLineTerminator (c : ascii) : bool :=
  (Js.code c =? 10)%N || (Js.code c =? 13)%N.

(** A literal matched with the [i] flag; the matched text keeps its case. *)
Fixpoint prefixIgnoreCase (literal s : string) : option (string * string) :=
  match literal, s with
  | EmptyString, _ => Some (EmptyString, s)
  | String l literal', String c s' =>
      if Url.isChar (Js.lower_char c) l
      then match prefixIgnoreCase literal' s' with
           | Some (matched, rest) => Some (String c matched, rest)
           | None => None
           end
      else None
  | String _ _, EmptyString => None
  end.

(** [(https?|ftp):\/\/] at the start of [s]. *)
Definition schemePrefix (s : string) : option (string * string) :=
  match prefixIgnoreCase "https://" s with
  | Some r => Some r
  | None =>
      match prefixIgnoreCase "http://" s with
      | Some r => Some r
      | None => prefixIgnoreCase "ftp://" s
      end
  end.

(** The pattern [urlRegex] of [extractUrls] matched at the start of [s]:
    the scheme and [://], one character that is neither white space nor
    one of [/ $ . ? #], any one character but a line terminator, then as
    many characters other than white space as there are.  The result is
    the match and the text after it. *)
Definition matchHere (s : string) : option (string * string) :=
  match schemePrefix s with
  | Some (prefix, String c1 (String c2 more)) =>
      if negb (isWhitespace c1 || Url.oneOf "/$.?#" c1) && negb (isLineTerminator c2)
      then let '(run, rest) := Url.span (fun c => negb (isWhitespace c)) more in
           Some (prefix +:+ String c1 (String c2 run), rest)
      else None
  | _ => None
  end.

(** [urlRegex.exec(text)] with the text from [lastIndex] on: the leftmost
    match and the text from the new [lastIndex] on. *)
Fixpoint exec (s : string) : option (string * string) :=
  match matchHere s with
  | Some r => Some r
  | None =>
      match s with
      | EmptyString => None
      | String _ s' => exec s'
      end
  end.

Lemma span_length (p : ascii -> bool) (s : string) :
  (String.length (Url.span p s).2 <= String.length s)%nat.
Proof.
  induction s as [|c s IH]; simpl; [lia|].
  destruct (p c); [|simpl; lia].
  destruct (Url.span p s) as [a b]. simpl in *. lia.
Qed.

Lemma prefixIgnoreCase_length (literal s matched rest : string) :
  prefixIgnoreCase literal s = Some (matched, rest) ->
  (String.length rest <= String.length s)%nat.
Proof.
  revert s matched rest. induction literal as [|l literal IH]; intros s matched rest.
  - simpl. intros [= _ ->]. lia.
  - destruct s as [|c s]; simpl; [discriminate|].
    destruct (Url.isChar _ _); [|discriminate].
    destruct (prefixIgnoreCase literal s) as [[m r]|] eqn:E; [|discriminate].
    intros [= _ ->]. apply IH in E. lia.
Qed.

Lemma matchHere_shorter (s matched rest : string) :
  matchHere s = Some (matched, rest) ->
  (String.length rest < String.length s)%nat.
Proof.
  unfold matchHere, schemePrefix.
  assert (H : forall literal p r,
             prefixIgnoreCase literal s = Some (p, r) ->
             match r with
             | String c1 (String c2 more) =>
                 (String.length (Url.span (fun c => negb (isWhitespace c)) more).2
                  < String.length s)%nat
             | _ => True
             end).
  { intros literal p r Hp. apply prefixIgnoreCase_length in Hp.
    destruct r as [|c1 [|c2 more]]; try exact I.
    pose proof (span_length (fun c => negb (isWhitespace c)) more). simpl in Hp. lia. }
  destruct (prefixIgnoreCase "https://" s) as [[p r]|] eqn:E1;
    [|destruct (prefixIgnoreCase "http://" s) as [[p r]|] eqn:E2;
      [|destruct (prefixIgnoreCase "ftp://" s) as [[p r]|] eqn:E3; [|discriminate]]].
  all: match goal with E : prefixIgnoreCase _ _ = Some _ |- _ => apply H in E end.
  all: destruct r as [|c1 [|c2 more]]; try discriminate.
  all: destruct (_ && _); [|discriminate].
  all: destruct (Url.span _ more) as [run rest'] eqn:Es; simpl in *.
  all: intros [= _ <-]; assumption.
Qed.

Lemma exec_shorter (s matched rest : string) :
  exec s = Some (matched, rest) -> (String.length rest < String.length s)%nat.
Proof.
  induction s as [|c s IH]; simpl.
  - discriminate.
  - destruct (matchHere (String c s)) as [[m r]|] eqn:E.
    + intros [= _ <-]. now apply matchHere_shorter in E.
    + intros H. apply IH in H. lia.
Qed.


Section WithURL.

(** [new URL(url)]: [None] when the constructor throws. *)
Variable new_URL : string -> option Url.URL.

Definition isValidUrl (url : string) : bool :=
  match new_URL url with
  | Some urlObj =>
      if negb (allowedProtocol (Url.protocol urlObj)) then false
      else if negb (hostnamePattern (Url.hostname urlObj)) then false
      else if Url.any suspicious (Url.pathname urlObj) then false
      else true
  | None => false
  end.

Definition sanitizeUrl (url : string) : string :=
  match new_URL url with
  | Some urlObj =>
      if negb (allowedProtocol (Url.protocol urlObj)) then EmptyString
      else stripSuspicious (stripTags (Url.toString urlObj))
  | None => EmptyString
  end.

(** The [while ((match = urlRegex.exec(text)) !== null)] loop, on the
    text from [lastIndex] on and the array [urls]. *)
Equations? extractLoop (text : string) (urls : list string) : list string
    by wf (String.length text) lt :=
  extractLoop text urls with inspect (exec text) := {
  | exist _ (Some (url, rest)) Hexec =>
      extractLoop rest (if isValidUrl url then urls ++ [sanitizeUrl url] else urls);
  | exist _ None _ => urls
}.
Proof. now apply exec_shorter in Hexec. Qed.

(** [Boolean] as the filter of [urls.filter(Boolean)]: the empty string
    is the only falsy string. *)
Definition Boolean (s : string) : bool := negb (String.eqb s EmptyString).

Definition extractUrls (text : string) : list string :=
  List.filter Boolean (extractLoop text []).

End WithURL.

End UrlSanitizer.

(** ** SessionStore: merge on import ([importSessions], popup.js) *)

Module SessionStore.

Record Session : Type := mkSession {
  timestamp : Z;
  tabCount : nat;
  urls : list string;
  customName : option string
}.

(** [`${session.timestamp}_${session.urls[0]}`]; [urls[0]] of an empty
    list is [undefined]. *)
Definition sessionId (session : Session) : string :=
  pretty (timestamp session) +:+ "_" +:+ Js.template (head (urls session)).

(** [new Set(currentSessions.map(...))]; only [has] is used on it. *)
Definition existingSessionIds (currentSessions : list Session) : gset string :=
  list_to_set (map sessionId currentSessions).

(** [data.sessions.filter(session => !existingSessionIds.has(sessionId))]. *)
Definition newSessions (incoming currentSessions : list Session) : list Session :=
  List.filter
    (fun session =>
       negb (bool_decide (sessionId session ∈ existingSessionIds currentSessions)))
    incoming.

(** [[...newSessions, ...currentSessions]]. *)
Definition updatedSessions (incoming currentSessions : list Session) : list Session :=
  newSessions incoming currentSessions ++ currentSessions.

Record MergeResult : Type := mkMerge {
  merged : list Session;
  addedCount : nat;
  skippedCount : nat
}.

(** The merge of [importSessions]: [importedCount = newSessions.length],
    [skippedCount = data.sessions.length - newSessions.length]. *)
Definition mergeImport (incoming currentSessions : list Session) : MergeResult :=
  let fresh := newSessions incoming currentSessions in
  {| merged := updatedSessions incoming currentSessions;
     addedCount := length fresh;
     skippedCount := (length incoming - length fresh)%nat |}.



End SessionStore.

(** ** TabOrganizer ([groupTabs], [closeDuplicates], popup.js) *)

Module TabOrganizer.

(** The fields of a [chrome.tabs.Tab] that the organiser reads. *)
Record Tab : Type := mkTab {
  id : Z;
  url : string
}.

#[global] Instance Tab_eq_dec : EqDecision Tab.
Proof. solve_decision. Defined.

(** *** Grouping by domain *)

(** [parts.slice(-2)] and [parts.slice(0, -2)]. *)
Definition lastTwo {A} (parts : list A) : list A :=
  drop (length parts - 2) parts.

Definition butLastTwo {A} (parts : list A) : list A :=
  take (length parts - 2) parts.

(** [url.hostname.split('.')], then the two [join('.')]. *)
Definition baseDomainOf (hostname : string) : string :=
  Url.join "." (lastTwo (Url.splitOn (Url.isChar ".") hostname)).

Definition subdomainOf (hostname : string) : string :=
  Url.join "." (butLastTwo (Url.splitOn (Url.isChar ".") hostname)).

(** [groupedTabs] and the objects in it are object literals: a property
    read that finds no own property goes on to [Object.prototype].  These
    are the names found there in a fresh page; their values are functions,
    and for [__proto__] the prototype itself: all truthy, none an array. *)
Definition objectPrototypeKeys : list string :=
  ["constructor"; "__defineGetter__"; "__defineSetter__"; "hasOwnProperty";
   "__lookupGetter__"; "__lookupSetter__"; "isPrototypeOf";
   "propertyIsEnumerable"; "toString"; "valueOf"; "__proto__";
   "toLocaleString"].

Definition inherited (key : string) : bool :=
  bool_decide (key ∈ objectPrototypeKeys).

(** The state of the first pass: the own properties of [groupedTabs], and
    whether the pass has given [Object.prototype] a property named by the
    empty string (it does when the base domain is [__proto__]). *)
Record Grouping : Type := mkGrouping {
  groupedTabs : gmap string (gmap string (list Tab));
  polluted : bool
}.

(** What a property read [object[key]] finds. *)
Inductive Read (A : Type) : Type :=
  | Own (value : A)
  | Inherited
  | Absent.
Arguments Own {A} value.
Arguments Inherited {A}.
Arguments Absent {A}.

Definition readProperty {A} (own : gmap string A) (polluted : bool) (key : string)
  : Read A :=
  match own !! key with
  | Some value => Own value
  | None =>
      if inherited key || (polluted && String.eqb key EmptyString)
      then Inherited
      else Absent
  end.

(** The body of [tabs.forEach] after the URL has been parsed; [None] is a
    [TypeError].  When [groupedTabs[baseDomain]] is an inherited object the
    tab is pushed onto an array hung on that object, which is no part of
    [groupedTabs] (the hostname has one label then, and [subdomain] is
    empty).  When [groupedTabs[baseDomain][subdomain]] is an inherited
    function or the prototype, it has no [push]. *)
Definition place (g : Grouping) (hostname : string) (tab : Tab) : option Grouping :=
  let baseDomain := baseDomainOf hostname in
  let subdomain := subdomainOf hostname in
  match readProperty (groupedTabs g) (polluted g) baseDomain with
  | Inherited =>
      Some (mkGrouping (groupedTabs g)
                       (polluted g || String.eqb baseDomain "__proto__"))
  | r =>
      let inner := match r with Own inner => inner | _ => ∅ end in
      match readProperty inner (polluted g) subdomain with
      | Own bucket =>
          Some (mkGrouping
                  (<[baseDomain := <[subdomain := bucket ++ [tab]]> inner]> (groupedTabs g))
                  (polluted g))
      | Absent =>
          Some (mkGrouping
                  (<[baseDomain := <[subdomain := [tab]]> inner]> (groupedTabs g))
                  (polluted g))
      | Inherited =>
          if inherited subdomain then None
          else Some (mkGrouping (<[baseDomain := inner]> (groupedTabs g)) (polluted g))
      end
  end.

Section Grouping.

(** [new URL(tab.url)]: [None] when the constructor throws. *)
Variable new_URL : string -> option Url.URL.

Definition groupTab (st : option Grouping) (tab : Tab) : option Grouping :=
  g ← st;
  urlObj ← new_URL (url tab);
  place g (Url.hostname urlObj) tab.

(** First pass: [tabs.forEach(...)] from [groupedTabs = {}]. *)
Definition firstPassGroups (tabs : list Tab) : option Grouping :=
  fold_left groupTab tabs (Some (mkGrouping ∅ false)).

End Grouping.

(** The order of [Array.prototype.sort] without a comparator, on strings:
    by code units. *)
Definition codeUnitOrder (a b : string) : Prop := String.leb a b = true.

#[global] Instance codeUnitOrder_dec : RelDecision codeUnitOrder.
Proof. intros a b. unfold codeUnitOrder. solve_decision. Defined.

(** [Object.keys(object).sort()]: the own keys are distinct, so the result
    is their one ascending arrangement, whatever order the engine lists
    them in and whatever sorting algorithm it uses. *)
Definition sortedKeys {A} (object : gmap string A) : list string :=
  merge_sort codeUnitOrder (map fst (map_to_list object)).

(** Second pass: the buckets concatenated in key order. *)
Definition newOrder (groupedTabs : gmap string (gmap string (list Tab))) : list Tab :=
  flat_map
    (fun baseDomain =>
       match groupedTabs !! baseDomain with
       | Some inner =>
           flat_map (fun subdomain => default [] (inner !! subdomain))
                    (sortedKeys inner)
       | None => []
       end)
    (sortedKeys groupedTabs).

(** The new order that [groupTabs] computes, [None] when the first pass
    throws (the [catch] logs the error and no tab is moved). *)
Definition groupTabs (new_URL : string -> option Url.URL) (tabs : list Tab)
  : option (list Tab) :=
  g ← firstPassGroups new_URL tabs;
  Some (newOrder (groupedTabs g)).



(** The grouping in the words of the specification.  The key of a tab is
    its base domain and its subdomain; the buckets are the tabs of one
    key in input order; they are put out by ascending base domain and,
    within one base domain, by ascending subdomain. *)
Definition keyOf (new_URL : string -> option Url.URL) (tab : Tab)
  : option (string * string) :=
  urlObj ← new_URL (url tab);
  Some (baseDomainOf (Url.hostname urlObj), subdomainOf (Url.hostname urlObj)).

Definition hasKey (new_URL : string -> option Url.URL) (k : string * string)
    (tab : Tab) : bool :=
  bool_decide (keyOf new_URL tab = Some k).

(** The distinct strings of a list, ascending. *)
Definition ascending (l : list string) : list string :=
  merge_sort codeUnitOrder (remove_dups l).

Definition baseDomains (new_URL : string -> option Url.URL) (tabs : list Tab)
  : list string :=
  omap (fun tab => fst <$> keyOf new_URL tab) tabs.

Definition subdomains (new_URL : string -> option Url.URL) (baseDomain : string)
    (tabs : list Tab) : list string :=
  omap (fun tab =>
          match keyOf new_URL tab with
          | Some (b, s) => if bool_decide (b = baseDomain) then Some s else None
          | None => None
          end) tabs.

Definition groupByDomain (new_URL : string -> option Url.URL) (tabs : list Tab)
  : list Tab :=
  flat_map
    (fun b =>
       flat_map (fun s => List.filter (hasKey new_URL (b, s)) tabs)
                (ascending (subdomains new_URL b tabs)))
    (ascending (baseDomains new_URL tabs)).

(** No tab has a key that names an inherited property. *)
Definition ownKeysOnly (new_URL : string -> option Url.URL) (tabs : list Tab) : Prop :=
  forall tab, tab ∈ tabs ->
    exists b s, keyOf new_URL tab = Some (b, s)
                /\ inherited b = false /\ inherited s = false.

(** *** Duplicates *)

(** [Set.prototype.add] on a set kept in insertion order. *)
Definition Set_add (x : Z) (s : list Z) : list Z :=
  if bool_decide (x ∈ s) then s else s ++ [x].

(** One iteration of [for (const tab of allTabs)]: the state is
    [uniqueURLs] (a [Map] from lower-cased URL to the kept tab) and
    [tabsToClose] (a [Set] of ids). *)
Definition markDuplicate (activeTab : Tab)
    (st : gmap string Tab * list Z) (tab : Tab) : gmap string Tab * list Z :=
  let '(uniqueURLs, tabsToClose) := st in
  let url := Js.toLowerCase (url tab) in
  match uniqueURLs !! url with
  | Some kept =>
      if id tab =? id activeTab
      then (<[url := tab]> uniqueURLs, Set_add (id kept) tabsToClose)
      else (uniqueURLs, Set_add (id tab) tabsToClose)
  | None => (<[url := tab]> uniqueURLs, tabsToClose)
  end.

Definition firstPass (activeTab : Tab) (allTabs : list Tab)
  : gmap string Tab * list Z :=
  fold_left (markDuplicate activeTab) allTabs (∅, []).

(** The map of kept tabs after the pass. *)
Definition uniqueURLs (activeTab : Tab) (allTabs : list Tab) : gmap string Tab :=
  fst (firstPass activeTab allTabs).

(** The removal set after the pass (the [findDuplicates] of the
    specification). *)
Definition tabsToClose (activeTab : Tab) (allTabs : list Tab) : list Z :=
  snd (firstPass activeTab allTabs).

(** The host calls that follow the pass. *)
Inductive TabCall : Type :=
  | TabsRemove (ids : list Z)
  | TabsActivate (tabId : Z).

Definition closeDuplicates (activeTab : Tab) (allTabs : list Tab)
  : list TabCall * nat :=
  let closing := tabsToClose activeTab allTabs in
  let calls :=
    if (0 <? length closing)%nat
    then TabsRemove closing
         :: (if bool_decide (id activeTab ∈ closing) then []
             else [TabsActivate (id activeTab)])
    else [] in
  (calls, length closing).

(** The lower-cased URLs of a tab list, each once. *)
Definition distinctURLs (allTabs : list Tab) : list string :=
  remove_dups (map (fun tab => Js.toLowerCase (url tab)) allTabs).

End TabOrganizer.

(** ** SnapshotCodec: import of window and session bundles
    ([importTabs], background.js; [importSessions], popup.js) *)

Module SnapshotCodec.

(** What the importers read of the parsed file [data]: the members
    [data.version] and [data.windows] / [data.sessions].  A file that
    [JSON.parse] rejects, or whose top-level value is [null], is [None]:
    both throw before the format test. *)
Record ImportFile (A : Type) : Type := mkFile {
  version : Js.value unit;
  payload : Js.value A
}.
Arguments mkFile {A} version payload.
Arguments version {A} _.
Arguments payload {A} _.

Inductive ImportError : Type :=
  | ParseError          (* thrown by [JSON.parse] or by reading a member of [null] *)
  | InvalidFileFormat   (* [new Error('Invalid file format')] *)
  | NotIterable.        (* [for ... of] over a value that is not iterable *)

Inductive Response : Type :=
  | Success
  | Failure (error : ImportError).

(** *** Replay of a window bundle *)

Record TabData : Type := mkTabData {
  url : string;
  active : bool;
  pinned : bool;
  title : string
}.

Record WindowData : Type := mkWindowData {
  focused : bool;
  state : string;
  tabs : list TabData
}.

(** The window the host answers [chrome.windows.create] with: its id and
    the ids of its tabs, by position. *)
Record HostWindow : Type := mkHostWindow {
  windowId : Z;
  windowTabs : list Z
}.

Inductive Call : Type :=
  | WindowsCreate (url : list string) (focused : bool)
  | WindowsUpdate (windowId : Z) (state : string)
  | TabsUpdatePinned (tabId : Z)
  | TabsUpdateActive (tabId : Z).

Inductive Reply : Type :=
  | Rejected
  | Resolved
  | Created (window : HostWindow).

(** Awaited host calls: a state of the host with the log of the calls
    issued so far, and [None] for a thrown error. *)
Definition Async (Host A : Type) : Type :=
  Host * list Call -> (Host * list Call) * option A.

Definition ret {Host A} (a : A) : Async Host A := fun st => (st, Some a).

Definition throw {Host A} : Async Host A := fun st => (st, None).

Definition bind {Host A B} (m : Async Host A) (k : A -> Async Host B)
  : Async Host B :=
  fun st =>
    match m st with
    | (st', Some a) => k a st'
    | (st', None) => (st', None)
    end.

(** [try { body } catch (error) { console.error(...) }]. *)
Definition catch {Host} (body : Async Host unit) : Async Host unit :=
  fun st => ((body st).1, Some tt).

#[global] Instance Async_ret {Host} : MRet (Async Host) := @ret Host.
#[global] Instance Async_bind {Host} : MBind (Async Host) :=
  fun A B k m => bind m k.

Definition isRecognisedState (state : string) : bool :=
  bool_decide (state ∈ ["minimized"; "maximized"; "normal"]).

Section Replay.

Variable Host : Type.

(** The browser: how it answers one call and what it becomes. *)
Variable host : Host -> Call -> Host * Reply.

(** [await chrome. ...]: the call is logged; a rejected promise throws. *)
Definition await (c : Call) : Async Host Reply :=
  fun '(h, log) =>
    let '(h', r) := host h c in
    match r with
    | Rejected => ((h', log ++ [c]), None)
    | _ => ((h', log ++ [c]), Some r)
    end.

(** [window.tabs[i].id]: a [TypeError] when the window has no tab at
    position [i]. *)
Definition tabIdAt (window : HostWindow) (i : nat) : Async Host Z :=
  match windowTabs window !! i with
  | Some tabId => ret tabId
  | None => throw
  end.

(** [const state = String(windowData.state).toLowerCase();
    if ([...].includes(state)) await chrome.windows.update(...)]. *)
Definition setState (windowData : WindowData) (window : HostWindow)
  : Async Host unit :=
  let state := Js.toLowerCase (state windowData) in
  if isRecognisedState state
  then await (WindowsUpdate (windowId window) state) ;; ret tt
  else ret tt.

(** [for (let i = 0; i < windowData.tabs.length; i++)], from index [i]. *)
Fixpoint pinTabs (window : HostWindow) (i : nat) (rest : list TabData)
  : Async Host unit :=
  match rest with
  | [] => ret tt
  | tab :: rest' =>
      (if pinned tab
       then tabId ← tabIdAt window i; await (TabsUpdatePinned tabId) ;; ret tt
       else ret tt) ;;
      pinTabs window (S i) rest'
  end.

(** [findIndex(tab => tab.active)], then the update when it is not -1. *)
Definition setActive (windowData : WindowData) (window : HostWindow)
  : Async Host unit :=
  match list_find (fun tab => active tab = true) (tabs windowData) with
  | Some (activeTabIndex, _) =>
      tabId ← tabIdAt window activeTabIndex;
      await (TabsUpdateActive tabId) ;; ret tt
  | None => ret tt
  end.

Definition createCall (windowData : WindowData) : Call :=
  WindowsCreate (map url (tabs windowData)) (focused windowData).

(** The body of the [try] for one window. *)
Definition replayWindow (windowData : WindowData) : Async Host unit :=
  r ← await (createCall windowData);
  match r with
  | Created window =>
      setState windowData window ;;
      pinTabs window 0 (tabs windowData) ;;
      setActive windowData window
  | _ => throw
  end.

(** [for (const windowData of data.windows) { try {...} catch {...} }]. *)
Fixpoint createWindows (windows : list WindowData) : Async Host unit :=
  match windows with
  | [] => ret tt
  | windowData :: rest => catch (replayWindow windowData) ;; createWindows rest
  end.

(** The [importTabs] message handler on the parsed file. *)
Definition importTabs (file : option (ImportFile WindowData))
    (st : Host * list Call) : (Host * list Call) * Response :=
  match file with
  | None => (st, Failure ParseError)
  | Some data =>
      if negb (Js.truthy (version data)) || negb (Js.truthy (payload data))
      then (st, Failure InvalidFileFormat)
      else
        match payload data with
        | Js.Array windows => ((createWindows windows st).1, Success)
        | Js.Str _ =>
            (* each character is a [windowData] without [tabs]: every
               iteration throws before any host call and is caught *)
            (st, Success)
        | _ => (st, Failure NotIterable)
        end
  end.

End Replay.

(** *** Import of a session bundle *)

Inductive Feedback : Type :=
  | Imported                                   (* ['Imported!'] *)
  | ImportedSkipped (imported skipped : nat)   (* [`Imported ${x}, skipped ${y}`] *)
  | InvalidFile.                               (* ['Invalid file'] *)

(** The [onchange] handler of [importSessions] on the parsed file and
    the stored [sessions] ([None] when the key is not set). *)
Definition importSessions (file : option (ImportFile SessionStore.Session))
    (storage : option (list SessionStore.Session))
  : option (list SessionStore.Session) * Feedback :=
  match file with
  | None => (storage, InvalidFile)
  | Some data =>
      if negb (Js.truthy (version data)) || negb (Js.isArray (payload data))
      then (storage, InvalidFile)
      else
        match payload data with
        | Js.Array sessions =>
            let currentSessions := default [] storage in
            let r := SessionStore.mergeImport sessions currentSessions in
            (Some (SessionStore.merged r),
             if (0 <? SessionStore.skippedCount r)%nat
             then ImportedSkipped (SessionStore.addedCount r)
                                  (SessionStore.skippedCount r)
             else Imported)
        | _ => (storage, InvalidFile)
        end
  end.


(** A browser that accepts every call: windows and tabs get consecutive
    ids. *)
Definition acceptingHost (next : Z) (c : Call) : Z * Reply :=
  match c with
  | WindowsCreate urls _ =>
      let n := Z.of_nat (length urls) in
      (next + 1 + n,
       Created (mkHostWindow next (map (fun i => next + 1 + Z.of_nat i) (seq 0 (length urls)))))
  | _ => (next, Resolved)
  end.

(** A host answers every call, and a created window has a tab for each
    requested URL. *)
Definition answers {Host} (host : Host -> Call -> Host * Reply) : Prop :=
  forall h c,
    match c with
    | WindowsCreate urls _ =>
        exists window, (host h c).2 = Created window
                       /\ length (windowTabs window) = length urls
    | _ => (host h c).2 = Resolved
    end.

Definition isUpdate (c : Call) : bool :=
  match c with WindowsUpdate _ _ => true | _ => false end.

Definition isCreate (c : Call) : bool :=
  match c with WindowsCreate _ _ => true | _ => false end.

End SnapshotCodec.

(** ** String and array methods used by the handlers below *)

Module JsText.

(** [String.prototype.trim]: white space and line terminators are
    removed at both ends; on code units below 256 they are the
    characters of the class [\s]. *)
Definition trim (s : string) : string :=
  Url.reverse
    (Url.dropWhile UrlSanitizer.isWhitespace
       (Url.reverse (Url.dropWhile UrlSanitizer.isWhitespace s))).

(** The line feed, U+000A, and the text of the literal that names it. *)
Definition lineFeed : ascii := "010"%char.

Definition newline : string := String lineFeed EmptyString.

(** [s.substring(start, finish)] with [start <= finish]. *)
Definition substring (start finish : nat) (s : string) : string :=
  String.substring start (finish - start) s.

(** [s.replace(/c/g, d)] for a one-character pattern [c]. *)
Fixpoint replaceAll (c d : ascii) (s : string) : string :=
  match s with
  | EmptyString => EmptyString
  | String x s' => String (if Url.isChar c x then d else x) (replaceAll c d s')
  end.

(** [array.splice(start, deleteCount)] for its effect on the array. *)
Definition splice {A} (start deleteCount : nat) (array : list A) : list A :=
  take start array ++ drop (start + deleteCount) array.

(** [array[index] = x]: an assignment past the end lengthens the array
    and leaves holes, [None] here, before the new element. *)
Definition assignAt {A} (index : nat) (x : A) (array : list A) : list (option A) :=
  if (index <? length array)%nat
  then <[index := Some x]> (Some <$> array)
  else (Some <$> array) ++ replicate (index - length array) None ++ [Some x].

(** [Array.prototype.sort(comparefn)]: the sort is stable, so for a
    consistent comparator the result is the one arrangement that an
    insertion from the right computes.  [comparefn x y > 0] puts [y]
    first. *)
Fixpoint insertSorted {A} (comparefn : A -> A -> Z) (x : A) (sorted : list A) : list A :=
  match sorted with
  | [] => [x]
  | y :: rest =>
      if 0 <? comparefn x y then y :: insertSorted comparefn x rest
      else x :: sorted
  end.

Definition sort {A} (comparefn : A -> A -> Z) (array : list A) : list A :=
  foldr (insertSorted comparefn) [] array.

End JsText.

(** ** SessionList: the stored sessions ([saveSession], [deleteSession],
    [confirmRename], [exportSessions], popup.js) *)

Module SessionList.

(** [result.sessions || []]: the stored list, empty when the key is not
    set. *)
Definition sessionsOf (storage : option (list SessionStore.Session))
  : list SessionStore.Session :=
  default [] storage.

(** [saveSession]: the session of the current window, [now] being
    [Date.now()], is put first ([unshift]) and the list is stored. *)
Definition saveSession (now : Z) (tabs : list TabOrganizer.Tab)
    (storage : option (list SessionStore.Session))
  : option (list SessionStore.Session) :=
  let session :=
    SessionStore.mkSession now (length tabs) (map TabOrganizer.url tabs) None in
  Some (session :: sessionsOf storage).

(** [deleteSession(index)]: [sessions.splice(index, 1)], then the list is
    stored. *)
Definition deleteSession (index : nat) (storage : option (list SessionStore.Session))
  : option (list SessionStore.Session) :=
  Some (JsText.splice index 1 (sessionsOf storage)).

(** [`${session.tabCount} tabs`]. *)
Definition defaultLabel (session : SessionStore.Session) : string :=
  pretty (SessionStore.tabCount session) +:+ " tabs".

(** [if (newName.length > 28) newName = newName.substring(0, 25) + '...']. *)
Definition truncateName (newName : string) : string :=
  if (28 <? String.length newName)%nat
  then JsText.substring 0 25 newName +:+ "..."
  else newName.

(** What [confirmRename] leaves: the session object of the list item, and
    the array it hands to [chrome.storage.local.set] when it does. *)
Record Renaming : Type := mkRenaming {
  renamed : SessionStore.Session;
  written : option (list (option SessionStore.Session))
}.

Definition withName (session : SessionStore.Session) (name : option string)
  : SessionStore.Session :=
  SessionStore.mkSession (SessionStore.timestamp session)
                         (SessionStore.tabCount session)
                         (SessionStore.urls session) name.

(** [confirmRename] of [enterRenameMode], for the list item rendered from
    [session] at position [index]: [placeholder] is whether the name
    element carries the class of that name, [textContent] its text. *)
Definition confirmRename (placeholder : bool) (textContent : string)
    (session : SessionStore.Session) (index : nat)
    (storage : option (list SessionStore.Session)) : Renaming :=
  if placeholder then mkRenaming session None
  else
    let newName := truncateName (JsText.trim textContent) in
    if negb (String.eqb newName "") && negb (String.eqb newName (defaultLabel session))
    then
      let session := withName session (Some newName) in
      mkRenaming session (Some (JsText.assignAt index session (sessionsOf storage)))
    else mkRenaming (withName session None) None.

(** [exportSessions]: the object that is written to the file, [now] being
    [Date.now()]; nothing is written when no session is stored. *)
Record ExportData : Type := mkExportData {
  version : Z;
  timestamp : Z;
  sessions : list SessionStore.Session
}.

Inductive ExportFeedback : Type :=
  | NoSessions    (* ['No sessions'], shown as an error *)
  | Exported.     (* ['Exported!'] *)

Definition exportSessions (now : Z) (storage : option (list SessionStore.Session))
  : option ExportData * ExportFeedback :=
  let sessions := sessionsOf storage in
  if (length sessions =? 0)%nat then (None, NoSessions)
  else (Some (mkExportData 1 now sessions), Exported).

(** What [importSessions] reads of the exported file:
    [JSON.parse(JSON.stringify(exportData, null, 2))].  Integers, strings,
    [null] and arrays of them come back as they were written. *)
Definition fileOf (exportData : ExportData)
  : SnapshotCodec.ImportFile SessionStore.Session :=
  SnapshotCodec.mkFile (Js.Number (version exportData))
                       (Js.Array (sessions exportData)).

End SessionList.

(** ** SessionView: the labels of a list item ([formatSessionDate],
    [getTopDomains], popup.js) *)

Module SessionView.

(** *** The age of a session

    Times are integer milliseconds, as [Date.now()] gives them; on such
    numbers [Math.floor(x / k)] is the quotient rounded down. *)

Section Dates.

(** [new Date(timestamp).toLocaleDateString('en-GB', {...})], which
    depends on the time zone of the host. *)
Variable toLocaleDateString : Z -> string.

Definition formatSessionDate (now timestamp : Z) : string :=
  let diff := now - timestamp in
  let seconds := diff / 1000 in
  let minutes := seconds / 60 in
  let hours := minutes / 60 in
  let days := hours / 24 in
  let weeks := days / 7 in
  if weeks <? 1 then
    if minutes <? 1 then "Now"
    else if hours <? 1 then pretty minutes +:+ "m"
    else if days <? 1 then pretty hours +:+ "h"
    else pretty days +:+ "d"
  else if weeks <? 4 then pretty weeks +:+ "w"
  else JsText.replaceAll "/" "-" (toLocaleDateString timestamp).

End Dates.

(** *** The most common domains of a session *)

Definition CHAR_LIMIT : nat := 48.

(** [hostname.replace(/^www\./, '')]. *)
Definition stripWww (hostname : string) : string :=
  match hostname with
  | String "w" (String "w" (String "w" (String "." rest))) => rest
  | _ => hostname
  end.

(** The domain counted for a hostname: its last three labels when there
    are more than two and the one before the last is [co], else its last
    two. *)
Definition domainOf (hostname : string) : string :=
  let parts := Url.splitOn (Url.isChar ".") (stripWww hostname) in
  if (2 <? length parts)%nat
     && bool_decide (parts !! (length parts - 2)%nat = Some "co")
  then Url.join "." (drop (length parts - 3) parts)
  else Url.join "." (TabOrganizer.lastTwo parts).

(** [domainCounts] is an object literal: its own properties, in the order
    of their creation. *)
Definition own {A} (object : list (string * A)) (key : string) : option A :=
  snd <$> List.find (fun e => String.eqb e.1 key) object.

Definition assign {A} (object : list (string * A)) (key : string) (value : A)
  : list (string * A) :=
  if existsb (fun e => String.eqb e.1 key) object
  then map (fun e => if String.eqb e.1 key then (key, value) else e) object
  else object ++ [(key, value)].

(** [domainCounts[domain] = (domainCounts[domain] || 0) + 1].  When
    [domain] names a property inherited from [Object.prototype] the value
    read is an object, the sum is a text and no number: the comparator of
    the sort below is then inconsistent and the order of its result is
    left to the engine.  That case is [None], outside this model.
    [polluted] is whether [Object.prototype] has been given a property
    named by the empty string, as [groupTabs] does on a tab whose base
    domain is [__proto__]. *)
Definition countDomain (polluted : bool) (domainCounts : list (string * nat))
    (domain : string) : option (list (string * nat)) :=
  match own domainCounts domain with
  | Some n => Some (assign domainCounts domain (n + 1)%nat)
  | None =>
      if TabOrganizer.inherited domain || (polluted && String.eqb domain "")
      then None
      else Some (assign domainCounts domain 1%nat)
  end.

(** The value of a key that is an array index: a canonical decimal
    numeral below 2^32 - 1. *)
Definition arrayIndex (key : string) : option N :=
  if negb (String.eqb key "") && Url.all Url.isDigit key
     && (String.eqb key "0" || negb (String.prefix "0" key))
  then
    let n := fold_left (fun n c => (10 * n + (Js.code c - 48))%N)
                       (list_ascii_of_string key) 0%N in
    if (n <? 4294967295)%N then Some n else None
  else None.

(** [Object.entries(object)]: the array-index keys by ascending value,
    then the other keys in the order of their creation. *)
Definition entries {A} (object : list (string * A)) : list (string * A) :=
  let indexed :=
    omap (fun e => (fun i => (i, e)) <$> arrayIndex e.1) object in
  let named :=
    List.filter (fun e => bool_decide (arrayIndex e.1 = None)) object in
  map snd (JsText.sort (fun a b => Z.of_N a.1 - Z.of_N b.1) indexed) ++ named.

Section Domains.

(** [new URL(url)]: [None] when the constructor throws. *)
Variable new_URL : string -> option Url.URL.

(** The state of [Object.prototype], see [countDomain]. *)
Variable polluted : bool.

(** The body of [urls.forEach]: a URL that does not parse is skipped. *)
Definition countUrl (st : option (list (string * nat))) (url : string)
  : option (list (string * nat)) :=
  domainCounts ← st;
  match new_URL url with
  | Some urlObj => countDomain polluted domainCounts (domainOf (Url.hostname urlObj))
  | None => Some domainCounts
  end.

Definition domainCounts (urls : list string) : option (list (string * nat)) :=
  fold_left countUrl urls (Some []).

(** [Object.entries(domainCounts).sort(([,a], [,b]) => b - a)
    .map(([domain]) => domain)]. *)
Definition sortedDomains (urls : list string) : option (list string) :=
  counts ← domainCounts urls;
  Some (map fst (JsText.sort (fun a b => Z.of_nat b.2 - Z.of_nat a.2)
                             (entries counts))).

(** The loop [for (const domain of sortedDomains)], on what is left of
    [sortedDomains], with [domains] and [totalLength]. *)
Fixpoint fitDomains (sortedDomains domains : list string) (totalLength : nat)
  : list string :=
  match sortedDomains with
  | [] => domains
  | domain :: rest =>
      let addedLength :=
        if (length domains =? 0)%nat then String.length domain
        else (String.length domain + 2)%nat in
      if (CHAR_LIMIT <? totalLength + addedLength)%nat then domains
      else fitDomains rest (domains ++ [domain]) (totalLength + addedLength)%nat
  end.

Definition getTopDomains (urls : list string) : option string :=
  sortedDomains ← sortedDomains urls;
  let domains := fitDomains sortedDomains [] 0%nat in
  Some (if (length domains =? 0)%nat then "No domains"
        else if (length domains <? length sortedDomains)%nat
             then Url.join ", " domains +:+ "..."
             else Url.join ", " domains).



End Domains.

End SessionView.

(** ** TabShuffle ([randomizeTabs], popup.js) *)

Module TabShuffle.


Section Random.

(** The value of [Math.floor(Math.random() * (i + 1))] in the iteration
    for [i]. *)
Variable randomIndex : nat -> nat.




End Random.

End TabShuffle.

(** ** Clipboard: the texts copied from the tabs ([copyTabURLs],
    [copyTabURLsGallery], [copySelectedTabs], [copySelectedTabsGallery],
    popup.js) *)

Module Clipboard.

(** [tabs.map(tab => tab.url).join('\n')]. *)
Definition copyTabURLs (tabs : list TabOrganizer.Tab) : string :=
  Url.join JsText.newline (map TabOrganizer.url tabs).


(** The highlighted tabs when more than one is, else the active tab. *)
Definition copySelectedTabs (highlightedTabs : list TabOrganizer.Tab)
    (activeTab : TabOrganizer.Tab) : string :=
  if (1 <? length highlightedTabs)%nat
  then Url.join JsText.newline (map TabOrganizer.url highlightedTabs)
  else TabOrganizer.url activeTab.

Definition copySelectedTabsGallery (prependString : string)
    (highlightedTabs : list TabOrganizer.Tab) (activeTab : TabOrganizer.Tab)
  : string :=
  if (1 <? length highlightedTabs)%nat
  then Url.join JsText.newline
                (map (fun tab => prependString +:+ TabOrganizer.url tab)
                     highlightedTabs)
  else prependString +:+ TabOrganizer.url activeTab.

End Clipboard.

(** ** UrlOpener: the handlers of the URL list ([openUrls],
    [openUrlsInNewWindow], the key handler of [urlList], popup.js) *)

Module UrlOpener.

Inductive Call : Type :=
  | TabsCreate (url : string)
  | WindowsCreate (url : list string).

Inductive Feedback : Type :=
  | NoURLs                  (* ['No URLs'], shown as an error *)
  | Opened (count : nat)    (* [`Opened ${validUrls.length} tabs`] *)
  | FailedToOpen.           (* ['Failed to open URLs'] *)

Section Handlers.

Variable new_URL : string -> option Url.URL.

(** Whether the host resolves the promise of a call. *)
Variable resolves : Call -> bool.

(** The click handler of [openUrls] on the value of the text area: every
    [chrome.tabs.create] is issued before [Promise.all] is awaited. *)
Definition openUrls (value : string) : list Call * Feedback :=
  let text := JsText.trim value in
  if String.eqb text "" then ([], NoURLs)
  else
    let validUrls := UrlSanitizer.extractUrls new_URL text in
    if (length validUrls =? 0)%nat then ([], NoURLs)
    else
      let calls := map TabsCreate validUrls in
      (calls, if forallb resolves calls then Opened (length validUrls)
              else FailedToOpen).

Definition openUrlsInNewWindow (value : string) : list Call * Feedback :=
  let text := JsText.trim value in
  if String.eqb text "" then ([], NoURLs)
  else
    let validUrls := UrlSanitizer.extractUrls new_URL text in
    if (length validUrls =? 0)%nat then ([], NoURLs)
    else
      let call := WindowsCreate validUrls in
      ([call], if resolves call then Opened (length validUrls) else FailedToOpen).

End Handlers.

(** The fields of the keyboard event that the handler of [urlList]
    reads, and the button it clicks. *)
Record KeyEvent : Type := mkKeyEvent {
  key : string;
  ctrlKey : bool;
  metaKey : bool;
  shiftKey : bool
}.

Inductive Button : Type :=
  | openUrlsBtn
  | openUrlsNewWindowBtn.

Definition urlListKeydown (e : KeyEvent) : option Button :=
  if String.eqb (key e) "Enter" && (ctrlKey e || metaKey e)
  then Some openUrlsBtn
  else if String.eqb (key e) "Enter" && (ctrlKey e || metaKey e) && shiftKey e
       then Some openUrlsNewWindowBtn
       else None.

End UrlOpener.

(** ** SnapshotWriter: export of the open windows ([generateURLList],
    background.js) *)

Module SnapshotWriter.

(** The fields of [chrome.tabs.Tab] and [chrome.windows.Window] that the
    export reads, with the ids the host knows them by. *)
Record BrowserTab : Type := mkBrowserTab {
  tabId : Z;
  url : string;
  active : bool;
  pinned : bool;
  title : string
}.

Record BrowserWindow : Type := mkBrowserWindow {
  windowId : Z;
  focused : bool;
  state : string;
  tabs : list BrowserTab
}.

(** [windows.map(win => ({...}))]. *)
Definition windowsData (windows : list BrowserWindow)
  : list SnapshotCodec.WindowData :=
  map (fun win =>
         SnapshotCodec.mkWindowData
           (focused win) (state win)
           (map (fun tab =>
                   SnapshotCodec.mkTabData (url tab) (active tab) (pinned tab)
                                           (title tab))
                (tabs win)))
      windows.

(** [exportData]; [now] is [new Date().toISOString()]. *)
Record ExportData : Type := mkExportData {
  version : Z;
  timestamp : string;
  windows : list SnapshotCodec.WindowData
}.

Definition generateURLList (now : string) (windows : list BrowserWindow)
  : ExportData :=
  mkExportData 1 now (windowsData windows).

(** What [importTabs] reads of the downloaded file:
    [JSON.parse(JSON.stringify(exportData, null, 2))]. *)
Definition fileOf (exportData : ExportData)
  : SnapshotCodec.ImportFile SnapshotCodec.WindowData :=
  SnapshotCodec.mkFile (Js.Number (version exportData))
                       (Js.Array (windows exportData)).

End SnapshotWriter.

(** ** Notions in which properties of Part II are stated *)

Module Expect.

(** The tabs that [chrome.tabs.remove([...tabsToClose])] leaves open after
    [closeDuplicates]. *)
Definition survivors (activeTab : TabOrganizer.Tab) (allTabs : list TabOrganizer.Tab)
  : list TabOrganizer.Tab :=
  List.filter
    (fun tab =>
       negb (bool_decide
               (TabOrganizer.id tab ∈ TabOrganizer.tabsToClose activeTab allTabs)))
    allTabs.

(** The calls that restore a window of a bundle once the host has
    created [window] for it: its state when that is recognised, a pin for
    every pinned entry, on the host's tab at the position of the entry, and
    the activation of the host's tab at the position of the first active
    entry. *)
Definition restoredState (windowData : SnapshotCodec.WindowData)
    (window : SnapshotCodec.HostWindow) : list SnapshotCodec.Call :=
  let state := Js.toLowerCase (SnapshotCodec.state windowData) in
  if SnapshotCodec.isRecognisedState state
  then [SnapshotCodec.WindowsUpdate (SnapshotCodec.windowId window) state]
  else [].

Definition restoredPins (tabs : list SnapshotCodec.TabData) (tabIds : list Z)
  : list SnapshotCodec.Call :=
  omap (fun p : SnapshotCodec.TabData * Z =>
          if SnapshotCodec.pinned p.1
          then Some (SnapshotCodec.TabsUpdatePinned p.2)
          else None)
       (zip tabs tabIds).

Definition restoredActive (windowData : SnapshotCodec.WindowData)
    (window : SnapshotCodec.HostWindow) : list SnapshotCodec.Call :=
  match list_find (fun tab => SnapshotCodec.active tab = true)
                  (SnapshotCodec.tabs windowData) with
  | Some (i, _) =>
      match SnapshotCodec.windowTabs window !! i with
      | Some tabId => [SnapshotCodec.TabsUpdateActive tabId]
      | None => []
      end
  | None => []
  end.

End Expect.

(* ===================================================================== *)
(** * Part II: properties *)
(* ===================================================================== *)

(** ** Facts about strings *)

Section StringFacts.









End StringFacts.

(** ** SessionStore *)

Section SessionStoreFacts.
Import SessionStore.











End SessionStoreFacts.

(** ** TabOrganizer: duplicates *)

Section DuplicateFacts.
Import TabOrganizer.

Variable activeTab : Tab.

Abbreviation lowerURL tab := (Js.toLowerCase (url tab)).

(** What holds of [uniqueURLs] and [tabsToClose] after the pass has read
    the tabs [seen]. *)
Record pass_inv (seen : list Tab) (st : gmap string Tab * list Z) : Prop := {
  inv_kept : forall k t, st.1 !! k = Some t -> t ∈ seen /\ lowerURL t = k;
  inv_closed_seen : forall x, x ∈ st.2 -> x ∈ map id seen;
  inv_active_open : id activeTab ∉ st.2;
  inv_kept_open : forall k t, st.1 !! k = Some t -> id t ∉ st.2;
  inv_nodup : NoDup st.2;
  inv_count : (length st.2 + size st.1 = length seen)%nat;
  inv_dom : forall k, is_Some (st.1 !! k) <-> k ∈ map (fun t => lowerURL t) seen;
  inv_all : forall t, t ∈ seen -> id t ∈ st.2 \/ st.1 !! lowerURL t = Some t
}.

Lemma Set_add_fresh (x : Z) (s : list Z) : x ∉ s -> Set_add x s = s ++ [x].
Proof. intros H. unfold Set_add. now rewrite bool_decide_eq_false_2. Qed.

Lemma id_inj_on (l : list Tab) (t u : Tab) :
  NoDup (map id l) -> t ∈ l -> u ∈ l -> id t = id u -> t = u.
Proof.
  induction l as [|x l IH]; simpl; intros Hnd Ht Hu Heq.
  - inversion Ht.
  - apply NoDup_cons in Hnd as [Hx Hnd].
    apply elem_of_cons in Ht as [->|Ht]; apply elem_of_cons in Hu as [->|Hu].
    + reflexivity.
    + exfalso. apply Hx. rewrite Heq. now apply list_elem_of_fmap_2.
    + exfalso. apply Hx. rewrite <- Heq. now apply list_elem_of_fmap_2.
    + now apply IH.
Qed.

Lemma pass_inv_init : pass_inv [] (∅, []).
Proof.
  constructor; simpl.
  - intros k t H. now rewrite lookup_empty in H.
  - intros x H. inversion H.
  - apply not_elem_of_nil.
  - intros k t H. now rewrite lookup_empty in H.
  - constructor.
  - reflexivity.
  - intros k. rewrite lookup_empty. split; [intros [? H]; discriminate H|].
    intros H. inversion H.
  - intros t H. inversion H.
Qed.

(** Membership in a list extended at its end. *)
Local Ltac member :=
  rewrite ?elem_of_app, ?list_elem_of_singleton; intuition (auto; congruence).

Lemma pass_inv_step (seen : list Tab) (st : gmap string Tab * list Z) (tab : Tab) :
  NoDup (map id (seen ++ [tab])) ->
  pass_inv seen st ->
  pass_inv (seen ++ [tab]) (markDuplicate activeTab st tab).
Proof.
  intros Hnd [Hkept Hcs Hact Hko Hndc Hcnt Hdom Hall].
  destruct st as [U C]; simpl in *.
  rewrite map_app in Hnd. simpl in Hnd.
  apply NoDup_app in Hnd as (Hnds & Hfresh & _).
  assert (Hnew : id tab ∉ map id seen).
  { intros Hin. apply (Hfresh _ Hin). now left. }
  assert (HnewC : id tab ∉ C) by (intros Hin; apply Hnew, Hcs, Hin).
  unfold markDuplicate.
  destruct (U !! lowerURL tab) as [kept|] eqn:Hlook.
  - destruct (Hkept _ _ Hlook) as [Hkin Hkurl].
    pose proof (Hko _ _ Hlook) as HkC.
    assert (Hne : id kept <> id tab).
    { intros Heq. apply Hnew. rewrite <- Heq. now apply list_elem_of_fmap_2. }
    destruct (Z.eqb_spec (id tab) (id activeTab)) as [Heq|Hneq].
    + rewrite (Set_add_fresh _ _ HkC).
      constructor; simpl.
      * intros k t. rewrite lookup_insert. case_decide as Hk.
        -- intros [= <-]. split; [member | now subst].
        -- intros H. destruct (Hkept _ _ H). split; [member | done].
      * intros x Hx. rewrite map_app. apply elem_of_app in Hx as [Hx|Hx].
        -- apply elem_of_app. left. now apply Hcs.
        -- apply list_elem_of_singleton in Hx as ->. apply elem_of_app. left.
           now apply list_elem_of_fmap_2.
      * intros Hin. apply elem_of_app in Hin as [Hin|Hin]; [now apply Hact|].
        apply list_elem_of_singleton in Hin. congruence.
      * intros k t. rewrite lookup_insert. case_decide as Hk.
        -- intros [= <-] Hin. apply elem_of_app in Hin as [Hin|Hin]; [done|].
           apply list_elem_of_singleton in Hin. congruence.
        -- intros H Hin. apply elem_of_app in Hin as [Hin|Hin].
           ++ now apply (Hko _ _ H).
           ++ apply list_elem_of_singleton in Hin.
              destruct (Hkept _ _ H) as [Htin Hturl].
              assert (t = kept) by (apply (id_inj_on seen); auto).
              subst t. congruence.
      * apply NoDup_app. split; [done|]. split; [|apply NoDup_singleton].
        intros x Hx Hx'. apply list_elem_of_singleton in Hx'. now subst.
      * rewrite !length_app. simpl.
        rewrite map_size_insert_Some by eauto. lia.
      * intros k. rewrite map_app, elem_of_app. simpl.
        rewrite list_elem_of_singleton, <- Hdom, lookup_insert.
        case_decide as Hk; [|intuition congruence].
        subst k. split; [eauto|]. intros _. eauto.
      * intros t Ht. apply elem_of_app in Ht as [Ht|Ht].
        -- destruct (Hall _ Ht) as [HtC|HtU]; [left; member|].
           destruct (decide (lowerURL tab = lowerURL t)) as [Hk|Hk].
           ++ left. rewrite <- Hk, Hlook in HtU. injection HtU as ->. member.
           ++ right. now rewrite lookup_insert_ne.
        -- apply list_elem_of_singleton in Ht as ->. right.
           apply lookup_insert_eq.
    + rewrite (Set_add_fresh _ _ HnewC).
      constructor; simpl.
      * intros k t H. destruct (Hkept _ _ H). split; [member | done].
      * intros x Hx. rewrite map_app. apply elem_of_app in Hx as [Hx|Hx].
        -- apply elem_of_app. left. now apply Hcs.
        -- apply list_elem_of_singleton in Hx as ->. apply elem_of_app. right.
           simpl. member.
      * intros Hin. apply elem_of_app in Hin as [Hin|Hin]; [now apply Hact|].
        apply list_elem_of_singleton in Hin. congruence.
      * intros k t H Hin. apply elem_of_app in Hin as [Hin|Hin].
        -- now apply (Hko _ _ H).
        -- apply list_elem_of_singleton in Hin.
           destruct (Hkept _ _ H) as [Htin _]. apply Hnew. rewrite <- Hin.
           now apply list_elem_of_fmap_2.
      * apply NoDup_app. split; [done|]. split; [|apply NoDup_singleton].
        intros x Hx Hx'. apply list_elem_of_singleton in Hx'. now subst.
      * rewrite !length_app. simpl. lia.
      * intros k. rewrite map_app, elem_of_app. simpl.
        rewrite list_elem_of_singleton, <- Hdom. split; [auto|].
        intros [H| ->]; [done | eauto].
      * intros t Ht. apply elem_of_app in Ht as [Ht|Ht].
        -- destruct (Hall _ Ht) as [HtC|HtU]; [left; member | now right].
        -- apply list_elem_of_singleton in Ht as ->. left. member.
  - constructor; simpl.
    + intros k t. rewrite lookup_insert. case_decide as Hk.
      * intros [= <-]. split; [member | now subst].
      * intros H. destruct (Hkept _ _ H). split; [member | done].
    + intros x Hx. rewrite map_app. apply elem_of_app. left. now apply Hcs.
    + exact Hact.
    + intros k t. rewrite lookup_insert. case_decide as Hk.
      * now intros [= <-].
      * apply Hko.
    + exact Hndc.
    + rewrite length_app. simpl. rewrite map_size_insert_None by done. lia.
    + intros k. rewrite map_app, elem_of_app. simpl.
      rewrite list_elem_of_singleton, <- Hdom, lookup_insert.
      case_decide as Hk; [|intuition congruence].
      subst k. split; [auto|]. intros _. eauto.
    + intros t Ht. apply elem_of_app in Ht as [Ht|Ht].
      * destruct (Hall _ Ht) as [HtC|HtU]; [now left|].
        right. rewrite lookup_insert_ne; [done|].
        intros Hk. rewrite Hk, HtU in Hlook. discriminate Hlook.
      * apply list_elem_of_singleton in Ht as ->. right. apply lookup_insert_eq.
Qed.

Lemma pass_inv_firstPass (allTabs : list Tab) :
  NoDup (map id allTabs) -> pass_inv allTabs (firstPass activeTab allTabs).
Proof.
  unfold firstPass. induction allTabs as [|tab seen IH] using rev_ind; intros Hnd.
  - apply pass_inv_init.
  - rewrite fold_left_app. simpl. apply pass_inv_step; [exact Hnd|].
    apply IH. rewrite map_app in Hnd. now apply NoDup_app in Hnd as [? _].
Qed.

(** The removal set only grows. *)
Lemma tabsToClose_grows (rest : list Tab) (st : gmap string Tab * list Z) (x : Z) :
  x ∈ st.2 -> x ∈ (fold_left (markDuplicate activeTab) rest st).2.
Proof.
  revert st. induction rest as [|tab rest IH]; intros st Hx; simpl; [exact Hx|].
  apply IH. destruct st as [U C]. unfold markDuplicate. simpl in *.
  assert (Hadd : forall y, x ∈ Set_add y C).
  { intros y. unfold Set_add. case_bool_decide; [done|].
    apply elem_of_app. now left. }
  destruct (U !! lowerURL tab); [|exact Hx].
  destruct (id tab =? id activeTab); simpl; apply Hadd.
Qed.

(** A kept tab stays kept while the pass reads tabs other than the
    active one. *)
Lemma kept_stays (rest : list Tab) (st : gmap string Tab * list Z)
    (k : string) (t : Tab) :
  id activeTab ∉ map id rest ->
  st.1 !! k = Some t ->
  (fold_left (markDuplicate activeTab) rest st).1 !! k = Some t.
Proof.
  revert st. induction rest as [|tab rest IH]; intros st Hna Hk; simpl; [exact Hk|].
  simpl in Hna. apply not_elem_of_cons in Hna as [Hne Hna].
  apply IH; [exact Hna|].
  destruct st as [U C]. unfold markDuplicate. simpl in *.
  destruct (U !! lowerURL tab) eqn:Hlook.
  - destruct (Z.eqb_spec (id tab) (id activeTab)) as [Heq|_]; [congruence|].
    exact Hk.
  - simpl. rewrite lookup_insert_ne; [exact Hk|]. intros <-. congruence.
Qed.

End DuplicateFacts.

Section DuplicateClaims.
Import TabOrganizer.

Lemma size_kept_distinct (activeTab : Tab) (allTabs : list Tab) :
  NoDup (map id allTabs) ->
  size (uniqueURLs activeTab allTabs) = length (distinctURLs allTabs).
Proof.
  intros Hnd. destruct (pass_inv_firstPass activeTab allTabs Hnd) as [_ _ _ _ _ _ Hdom _].
  unfold uniqueURLs, distinctURLs.
  rewrite <- size_dom, <- (size_list_to_set (C := gset string)) by apply NoDup_remove_dups.
  f_equal. apply set_eq. intros k.
  rewrite elem_of_dom, Hdom, elem_of_list_to_set, elem_of_remove_dups. reflexivity.
Qed.

(** C3. With tab ids pairwise distinct, the removal set never contains
    the active tab; every tab before the active one with the same URL up
    to letter case is in the removal set and the active tab is the one
    kept for that URL; on the example of the specification the removal
    set is exactly the tab 1. *)
Theorem C3_active_tab_never_closed :
  (forall (allTabs : list Tab) (activeTab : Tab),
      NoDup (map id allTabs) ->
      id activeTab ∉ tabsToClose activeTab allTabs)
  /\ (forall (before after : list Tab) (earlier activeTab : Tab),
         NoDup (map id (before ++ activeTab :: after)) ->
         earlier ∈ before ->
         Js.toLowerCase (url earlier) = Js.toLowerCase (url activeTab) ->
         id earlier ∈ tabsToClose activeTab (before ++ activeTab :: after)
         /\ uniqueURLs activeTab (before ++ activeTab :: after)
            !! Js.toLowerCase (url activeTab) = Some activeTab)
  /\ tabsToClose (mkTab 2 "http://x.com/a")
                 [mkTab 1 "http://x.com/a"; mkTab 2 "http://x.com/a"] = [1].
Proof.
  split; [|split].
  - intros allTabs activeTab Hnd.
    apply (inv_active_open activeTab allTabs _ (pass_inv_firstPass activeTab allTabs Hnd)).
  - intros before after earlier activeTab Hnd Hin Hurl.
    assert (Hnd' : NoDup (map id (before ++ [activeTab]))).
    { rewrite map_app in *. simpl in *. apply NoDup_app in Hnd as (H1 & H2 & H3).
      apply NoDup_app. split; [exact H1|]. split.
      - intros x Hx Hx'. apply (H2 x Hx). apply list_elem_of_singleton in Hx' as ->.
        now left.
      - apply NoDup_singleton. }
    assert (Hafter : id activeTab ∉ map id after).
    { rewrite map_app in Hnd. simpl in Hnd. apply NoDup_app in Hnd as (_ & _ & H3).
      now apply NoDup_cons in H3 as [? _]. }
    assert (Hnb : NoDup (map id before)).
    { rewrite map_app in Hnd'. now apply NoDup_app in Hnd' as [? _]. }
    pose proof (pass_inv_firstPass activeTab before Hnb) as Inv.
    unfold tabsToClose, uniqueURLs, firstPass in *.
    rewrite fold_left_app. simpl.
    destruct (fold_left (markDuplicate activeTab) before (∅, [])) as [U C] eqn:HP.
    destruct Inv as [Hkept _ _ Hko _ _ Hdom Hall]. simpl in *.
    assert (Hsome : is_Some (U !! Js.toLowerCase (url activeTab))).
    { apply Hdom. rewrite <- Hurl.
      apply (list_elem_of_fmap_2 (fun t => Js.toLowerCase (url t))). exact Hin. }
    destruct Hsome as [kept Hlook].
    rewrite Hlook, Z.eqb_refl.
    split.
    + apply tabsToClose_grows. simpl.
      rewrite (Set_add_fresh _ _ (Hko _ _ Hlook)). apply elem_of_app.
      destruct (Hall _ Hin) as [HC|HU]; [now left|].
      right. rewrite Hurl, Hlook in HU. injection HU as ->. now left.
    + apply kept_stays; [exact Hafter|]. simpl. apply lookup_insert_eq.
  - vm_compute. reflexivity.
Qed.

(** Three tabs on one URL, the last one active: the two earlier ones go. *)
Lemma C3_active_tab_never_closed_witness :
  let t1 := mkTab 1 "http://x.com/a" in
  let t2 := mkTab 2 "HTTP://X.COM/a" in
  let t3 := mkTab 3 "http://x.com/A" in
  NoDup (map id [t1; t2; t3])
  /\ (id t3 ∉ tabsToClose t3 [t1; t2; t3])
  /\ (id t1 ∈ tabsToClose t3 ([t1; t2] ++ t3 :: []))
  /\ uniqueURLs t3 ([t1; t2] ++ t3 :: []) !! Js.toLowerCase (url t3) = Some t3.
Proof.
  intros t1 t2 t3.
  assert (Hnd : NoDup (map id [t1; t2; t3])).
  { simpl. repeat (apply NoDup_cons; split;
              [rewrite ?not_elem_of_cons; repeat split;
               (discriminate || apply not_elem_of_nil)|]).
    apply NoDup_nil_2. }
  split; [exact Hnd|]. split.
  - exact (proj1 C3_active_tab_never_closed [t1; t2; t3] t3 Hnd).
  - refine (proj1 (proj2 C3_active_tab_never_closed) [t1; t2] [] t1 t3 Hnd _ _).
    + now left.
    + reflexivity.
Defined.

(** C10. With tab ids pairwise distinct, the removal set has as many
    members as the tab list has tabs beyond one per distinct
    lower-cased URL, whichever tab is the active one. *)
Theorem C10_removal_count :
  forall (allTabs : list Tab),
    NoDup (map id allTabs) ->
    (forall activeTab : Tab,
        length (tabsToClose activeTab allTabs)
        = (length allTabs - length (distinctURLs allTabs))%nat)
    /\ (forall activeTab activeTab' : Tab,
           length (tabsToClose activeTab allTabs)
           = length (tabsToClose activeTab' allTabs)).
Proof.
  intros allTabs Hnd.
  assert (Hcount : forall activeTab : Tab,
             length (tabsToClose activeTab allTabs)
             = (length allTabs - length (distinctURLs allTabs))%nat).
  { intros activeTab. rewrite <- (size_kept_distinct activeTab allTabs Hnd).
    pose proof (inv_count activeTab allTabs _ (pass_inv_firstPass activeTab allTabs Hnd)) as H.
    unfold tabsToClose, uniqueURLs. lia. }
  split; [exact Hcount|].
  intros a b. now rewrite !Hcount.
Qed.

Lemma C10_removal_count_witness :
  let T := [mkTab 1 "http://x.com/a"; mkTab 2 "http://y.com/";
            mkTab 3 "http://X.com/a"; mkTab 4 "http://x.com/A"] in
  NoDup (map id T)
  /\ length (tabsToClose (mkTab 3 "http://X.com/a") T)
     = (length T - length (distinctURLs T))%nat.
Proof.
  intros T.
  assert (Hnd : NoDup (map id T)).
  { simpl. repeat (apply NoDup_cons; split;
              [rewrite ?not_elem_of_cons; repeat split;
               (discriminate || apply not_elem_of_nil)|]).
    apply NoDup_nil_2. }
  split; [exact Hnd|].
  exact (proj1 (C10_removal_count T Hnd) (mkTab 3 "http://X.com/a")).
Defined.

End DuplicateClaims.

(** ** SnapshotCodec: replay *)

Section ReplayFacts.
Import SnapshotCodec.

Context {Host : Type} (host : Host -> Call -> Host * Reply).

(** A computation only appends calls to the log, each satisfying [P]. *)
Definition emits {A} (P : Call -> Prop) (m : Async Host A) : Prop :=
  forall st, exists new, (m st).1.2 = st.2 ++ new /\ Forall P new.

Lemma bind_run {A B} (m : Async Host A) (k : A -> Async Host B) st :
  (m ≫= k) st
  = match m st with
    | (st', Some a) => k a st'
    | (st', None) => (st', None)
    end.
Proof. reflexivity. Qed.

Lemma emits_ret {A} P (a : A) : emits P (SnapshotCodec.ret a).
Proof. intros st. exists []. simpl. now rewrite app_nil_r. Qed.

Lemma emits_throw {A} P : emits P (@throw Host A).
Proof. intros st. exists []. simpl. now rewrite app_nil_r. Qed.

Lemma await_log (c : Call) st : (await Host host c st).1.2 = st.2 ++ [c].
Proof.
  destruct st as [h log]. unfold await. destruct (host h c) as [h' r].
  now destruct r.
Qed.

Lemma emits_await (P : Call -> Prop) (c : Call) : P c -> emits P (await Host host c).
Proof.
  intros Hc st. exists [c]. rewrite await_log. split; [reflexivity|].
  now constructor.
Qed.

Lemma emits_bind {A B} P (m : Async Host A) (k : A -> Async Host B) :
  emits P m -> (forall a, emits P (k a)) -> emits P (m ≫= k).
Proof.
  intros Hm Hk st. rewrite bind_run. destruct (Hm st) as (n1 & E1 & F1).
  destruct (m st) as [st' [a|]]; simpl in *.
  - destruct (Hk a st') as (n2 & E2 & F2). exists (n1 ++ n2).
    rewrite E2, E1, app_assoc. split; [reflexivity|]. now apply Forall_app.
  - exists n1. now split.
Qed.

Lemma emits_catch P (m : Async Host unit) : emits P m -> emits P (catch m).
Proof. intros Hm st. exact (Hm st). Qed.

(** The calls that may follow the creation of the window for
    [windowData]: no further creation, and a state update only with the
    lower-cased persisted state when that is one of the three literals. *)
Definition afterCreate (windowData : WindowData) (c : Call) : Prop :=
  match c with
  | WindowsCreate _ _ => False
  | WindowsUpdate _ s =>
      s = Js.toLowerCase (state windowData) /\ isRecognisedState s = true
  | TabsUpdatePinned _ | TabsUpdateActive _ => True
  end.

Definition quiet (c : Call) : Prop := isUpdate c = false /\ isCreate c = false.

Lemma emits_tabIdAt P window i : emits P (tabIdAt Host window i).
Proof.
  unfold tabIdAt. destruct (windowTabs window !! i);
    [apply emits_ret | apply emits_throw].
Qed.

Lemma emits_pinTabs P window i rest :
  (forall t, P (TabsUpdatePinned t)) -> emits P (pinTabs Host host window i rest).
Proof.
  intros HP. revert i. induction rest as [|tab rest IH]; intros i; simpl.
  - apply emits_ret.
  - apply emits_bind; [|intros _; apply IH].
    destruct (pinned tab); [|apply emits_ret].
    apply emits_bind; [apply emits_tabIdAt|]. intros t.
    apply emits_bind; [apply emits_await, HP | intros _; apply emits_ret].
Qed.

Lemma emits_setActive P windowData window :
  (forall t, P (TabsUpdateActive t)) -> emits P (setActive Host host windowData window).
Proof.
  intros HP. unfold setActive.
  destruct (list_find _ _) as [[i ?]|]; [|apply emits_ret].
  apply emits_bind; [apply emits_tabIdAt|]. intros tabId.
  apply emits_bind; [apply emits_await, HP | intros _; apply emits_ret].
Qed.

Lemma emits_setState windowData window :
  emits (afterCreate windowData) (setState Host host windowData window).
Proof.
  unfold setState. destruct (isRecognisedState _) eqn:Hrec; [|apply emits_ret].
  apply emits_bind; [|intros _; apply emits_ret].
  apply emits_await. simpl. now split.
Qed.

(** An unrecognised state: [setState] issues no call and throws nothing. *)
Lemma setState_unrecognised windowData window st :
  isRecognisedState (Js.toLowerCase (state windowData)) = false ->
  setState Host host windowData window st = (st, Some tt).
Proof. intros H. unfold setState. now rewrite H. Qed.

(** The calls of one window: its creation, then calls allowed after it. *)
Lemma replayWindow_calls (P : Call -> Prop) windowData :
  (forall window, emits P (setState Host host windowData window)) ->
  (forall t, P (TabsUpdatePinned t)) -> (forall t, P (TabsUpdateActive t)) ->
  forall st, exists rest,
    (replayWindow Host host windowData st).1.2
    = st.2 ++ createCall windowData :: rest
    /\ Forall P rest.
Proof.
  intros HS HPin HAct st. unfold replayWindow. rewrite bind_run.
  pose proof (await_log (createCall windowData) st) as Hlog.
  destruct (await Host host (createCall windowData) st) as [st' [r|]]; simpl in *.
  - assert (Hk : emits P (match r with
                           | Created window =>
                               setState Host host windowData window ;;
                               pinTabs Host host window 0 (tabs windowData) ;;
                               setActive Host host windowData window
                           | _ => throw
                           end)).
    { destruct r; try apply emits_throw.
      apply emits_bind; [apply HS|]. intros _.
      apply emits_bind; [now apply emits_pinTabs|]. intros _.
      now apply emits_setActive. }
    destruct (Hk st') as (rest & E & F). exists rest.
    rewrite E, Hlog, <- app_assoc. now split.
  - exists []. now split.
Qed.

Lemma replayWindow_after_create windowData st :
  exists rest,
    (replayWindow Host host windowData st).1.2
    = st.2 ++ createCall windowData :: rest
    /\ Forall (afterCreate windowData) rest.
Proof.
  apply replayWindow_calls; [apply emits_setState | done | done].
Qed.

Lemma replayWindow_unrecognised windowData st :
  isRecognisedState (Js.toLowerCase (state windowData)) = false ->
  exists rest,
    (replayWindow Host host windowData st).1.2
    = st.2 ++ createCall windowData :: rest
    /\ Forall quiet rest.
Proof.
  intros Hun. apply replayWindow_calls; try (intros; split; reflexivity).
  intros window st'. exists []. rewrite setState_unrecognised by exact Hun.
  simpl. now rewrite app_nil_r.
Qed.

Lemma filter_quiet_update (l : list Call) :
  Forall quiet l -> List.filter isUpdate l = [].
Proof.
  induction 1 as [|c l [Hu _] _ IH]; simpl; [reflexivity|]. now rewrite Hu.
Qed.

Lemma filter_afterCreate_create windowData (l : list Call) :
  Forall (afterCreate windowData) l -> List.filter isCreate l = [].
Proof.
  induction 1 as [|c l Hc _ IH]; simpl; [reflexivity|].
  destruct c; simpl in *; [contradiction | exact IH..].
Qed.

(** A recognised state: the update follows the creation of the window,
    for the window the host created and with the lower-cased state. *)
Lemma replayWindow_recognised windowData h log h' window :
  host h (createCall windowData) = (h', Created window) ->
  isRecognisedState (Js.toLowerCase (state windowData)) = true ->
  exists rest,
    (replayWindow Host host windowData (h, log)).1.2
    = log ++ createCall windowData
          :: WindowsUpdate (windowId window) (Js.toLowerCase (state windowData))
          :: rest.
Proof.
  intros Hcreate Hrec. unfold replayWindow. rewrite bind_run. unfold await at 1.
  rewrite Hcreate. rewrite bind_run. unfold setState. rewrite Hrec. rewrite bind_run.
  set (c := WindowsUpdate (windowId window) (Js.toLowerCase (state windowData))).
  pose proof (await_log c (h', log ++ [createCall windowData])) as Hlog.
  destruct (await Host host c (h', log ++ [createCall windowData])) as [st' [r|]];
    simpl in *.
  - assert (Hk : emits (fun _ => True)
                   (pinTabs Host host window 0 (tabs windowData) ;;
                    setActive Host host windowData window)).
    { apply emits_bind; [now apply emits_pinTabs|]. intros _. now apply emits_setActive. }
    destruct (Hk st') as (rest & E & _). exists rest.
    rewrite E, Hlog, <- !app_assoc. reflexivity.
  - exists []. rewrite Hlog, <- app_assoc. reflexivity.
Qed.

(** Every window of the bundle is attempted, in order, whatever
    happened to the windows before it. *)
Lemma createWindows_creates (windows : list WindowData) st :
  List.filter isCreate (createWindows Host host windows st).1.2
  = List.filter isCreate st.2 ++ map createCall windows.
Proof.
  revert st. induction windows as [|w ws IH]; intros st; simpl.
  - now rewrite app_nil_r.
  - rewrite bind_run. unfold catch at 1. simpl.
    rewrite IH. destruct (replayWindow_after_create w st) as (rest & E & F).
    rewrite E, List.filter_app. simpl.
    rewrite (filter_afterCreate_create w rest F), <- app_assoc. reflexivity.
Qed.

(** *** A host that answers every call *)

Hypothesis Hanswers : answers host.

Lemma await_resolved (c : Call) st :
  isCreate c = false -> (await Host host c st).2 = Some Resolved.
Proof.
  intros Hc. destruct st as [h log]. unfold await.
  pose proof (Hanswers h c) as H. destruct (host h c) as [h' r]. simpl in H.
  destruct c; simpl in Hc; try discriminate; now subst r.
Qed.

Definition completes (m : Async Host unit) : Prop :=
  forall st, (m st).2 = Some tt.

Lemma completes_bind (m k : Async Host unit) :
  completes m -> completes k -> completes (m ;; k).
Proof.
  intros Hm Hk st. rewrite bind_run. specialize (Hm st).
  destruct (m st) as [st' [[]|]]; simpl in *; [apply Hk | discriminate].
Qed.

Lemma completes_update (c : Call) :
  isCreate c = false -> completes (await Host host c ;; SnapshotCodec.ret tt).
Proof.
  intros Hc st. rewrite bind_run. pose proof (await_resolved c st Hc) as H.
  destruct (await Host host c st) as [st' [r|]]; simpl in *; [reflexivity | discriminate].
Qed.

Lemma completes_at window i (k : Z -> Async Host unit) :
  (i < length (windowTabs window))%nat ->
  (forall t, completes (k t)) ->
  completes (tabIdAt Host window i ≫= k).
Proof.
  intros Hi Hk st. rewrite bind_run. unfold tabIdAt.
  destruct (lookup_lt_is_Some_2 _ _ Hi) as [t Ht]. rewrite Ht. simpl. apply Hk.
Qed.

Lemma completes_pinTabs window i rest :
  (i + length rest <= length (windowTabs window))%nat ->
  completes (pinTabs Host host window i rest).
Proof.
  revert i. induction rest as [|tab rest IH]; intros i Hlen; simpl in *.
  - intros st. reflexivity.
  - apply completes_bind; [|apply IH; lia].
    destruct (pinned tab); [|intros st; reflexivity].
    apply completes_at; [lia|]. intros tabId. now apply completes_update.
Qed.

Lemma completes_setActive windowData window :
  length (windowTabs window) = length (tabs windowData) ->
  completes (setActive Host host windowData window).
Proof.
  intros Hlen. unfold setActive.
  destruct (list_find _ _) as [[i tab]|] eqn:Hfind; [|intros st; reflexivity].
  apply list_find_Some in Hfind as (Hi & _ & _).
  apply lookup_lt_Some in Hi.
  apply completes_at; [lia|]. intros tabId. now apply completes_update.
Qed.

Lemma completes_setState windowData window :
  completes (setState Host host windowData window).
Proof.
  unfold setState. destruct (isRecognisedState _); [|intros st; reflexivity].
  now apply completes_update.
Qed.

Lemma completes_replayWindow windowData :
  completes (replayWindow Host host windowData).
Proof.
  intros [h log]. unfold replayWindow. rewrite bind_run. unfold await.
  pose proof (Hanswers h (createCall windowData)) as (window & Hw & Hlen).
  destruct (host h (createCall windowData)) as [h' r]. simpl in Hw. subst r.
  rewrite length_map in Hlen.
  apply completes_bind; [apply completes_setState|].
  apply completes_bind; [apply completes_pinTabs; simpl; lia|].
  now apply completes_setActive.
Qed.

End ReplayFacts.

Section CodecClaims.
Import SnapshotCodec.

Lemma answers_acceptingHost : answers acceptingHost.
Proof.
  intros h c. destruct c; simpl; try reflexivity.
  eexists. split; [reflexivity|]. simpl. now rewrite length_map, length_seq.
Qed.

(** C8. During replay the persisted window state is applied only
    lower-cased and only when that is one of minimized, maximized,
    normal, and then right after the window is created; for every other
    state no [windows.update] call is issued,
    the state step throws nothing, a host that answers its calls lets
    the window complete, and every window of the bundle is attempted in
    order whatever happened before it.  On a bundle whose first window
    has the state [sideways] the replay issues the calls listed. *)
Theorem C8_unrecognised_state_ignored :
  (forall Host (host : Host -> Call -> Host * Reply) windowData st,
      exists rest,
        (replayWindow Host host windowData st).1.2
        = st.2 ++ createCall windowData :: rest
        /\ Forall (afterCreate windowData) rest)
  /\ (forall Host (host : Host -> Call -> Host * Reply) windowData window st,
         isRecognisedState (Js.toLowerCase (state windowData)) = false ->
         setState Host host windowData window st = (st, Some tt)
         /\ List.filter isUpdate (replayWindow Host host windowData st).1.2
            = List.filter isUpdate st.2)
  /\ (forall Host (host : Host -> Call -> Host * Reply) windowData h log h' window,
         host h (createCall windowData) = (h', Created window) ->
         isRecognisedState (Js.toLowerCase (state windowData)) = true ->
         exists rest,
           (replayWindow Host host windowData (h, log)).1.2
           = log ++ createCall windowData
                 :: WindowsUpdate (windowId window)
                                  (Js.toLowerCase (state windowData))
                 :: rest)
  /\ (forall Host (host : Host -> Call -> Host * Reply),
         answers host ->
         forall windowData st,
           (replayWindow Host host windowData st).2 = Some tt)
  /\ (forall Host (host : Host -> Call -> Host * Reply) windows st,
         List.filter isCreate (createWindows Host host windows st).1.2
         = List.filter isCreate st.2 ++ map createCall windows)
  /\ (let w1 := mkWindowData true "sideways"
                  [mkTabData "https://a.com/" false true "a";
                   mkTabData "https://b.com/" true false "b"] in
      let w2 := mkWindowData false "Maximized"
                  [mkTabData "https://c.com/" true false "c"] in
      createWindows Z acceptingHost [w1; w2] (10, [])
      = ((15, [WindowsCreate ["https://a.com/"; "https://b.com/"] true;
               TabsUpdatePinned 11;
               TabsUpdateActive 12;
               WindowsCreate ["https://c.com/"] false;
               WindowsUpdate 13 "maximized";
               TabsUpdateActive 14]),
         Some tt)).
Proof.
  split; [|split; [|split; [|split; [|split]]]].
  - intros. apply replayWindow_after_create.
  - intros Host host w window st Hun. split.
    + now apply setState_unrecognised.
    + destruct (replayWindow_unrecognised host w st Hun) as (rest & E & F).
      rewrite E, List.filter_app. simpl.
      now rewrite (filter_quiet_update rest F), app_nil_r.
  - intros Host host w h log h' window Hc Hrec.
    now apply (replayWindow_recognised host w h log h' window).
  - intros Host host Hans w st. now apply completes_replayWindow.
  - intros. apply createWindows_creates.
  - vm_compute. reflexivity.
Qed.

Lemma C8_unrecognised_state_ignored_witness :
  let w := mkWindowData true "Sideways" [mkTabData "https://a.com/" true true "a"] in
  isRecognisedState (Js.toLowerCase (state w)) = false
  /\ List.filter isUpdate (replayWindow Z acceptingHost w (0, [])).1.2 = []
  /\ (replayWindow Z acceptingHost w (0, [])).2 = Some tt.
Proof.
  intros w.
  assert (Hun : isRecognisedState (Js.toLowerCase (state w)) = false)
    by (vm_compute; reflexivity).
  split; [exact Hun|]. split.
  - exact (proj2 (proj1 (proj2 C8_unrecognised_state_ignored)
                    Z acceptingHost w (mkHostWindow 0 []) (0, []) Hun)).
  - exact (proj1 (proj2 (proj2 (proj2 C8_unrecognised_state_ignored)))
             Z acceptingHost answers_acceptingHost w (0, [])).
Defined.




End CodecClaims.


(** ** UrlSanitizer *)

Section SanitizerFacts.
Import UrlSanitizer.

Variable new_URL : string -> option Url.URL.







(** The result of [sanitizeUrl] holds no suspicious character. *)
Lemma keep_all (p : ascii -> bool) (s : string) : Url.all p (Url.keep p s) = true.
Proof.
  induction s as [|c s IH]; simpl; [reflexivity|].
  destruct (p c) eqn:Hc; simpl; [now rewrite Hc|exact IH].
Qed.

Lemma keep_id (p : ascii -> bool) (s : string) : Url.all p s = true -> Url.keep p s = s.
Proof.
  induction s as [|c s IH]; simpl; [reflexivity|].
  intros H. apply andb_true_iff in H as [Hc Hs]. now rewrite Hc, IH.
Qed.

Lemma stripTags_clean (s : string) :
  Url.all (fun c => negb (suspicious c)) s = true -> stripTags s = s.
Proof.
  unfold stripTags. induction s as [|c s IH]; simpl; [reflexivity|].
  intros H. apply andb_true_iff in H as [Hc Hs]. specialize (IH Hs).
  destruct (stripTagsFrom s) as [out afterGt]. simpl in *. subst out.
  assert (Hlt : Url.isChar "<" c = false).
  { apply negb_true_iff in Hc. unfold suspicious in Hc.
    apply orb_false_iff in Hc as [Hc _].
    unfold Url.oneOf in Hc. simpl in Hc. apply orb_false_iff in Hc as [Hc _].
    unfold Url.isChar in *. now rewrite N.eqb_sym. }
  now rewrite Hlt.
Qed.

Lemma sanitizeUrl_clean (url : string) :
  Url.all (fun c => negb (suspicious c)) (sanitizeUrl new_URL url) = true.
Proof.
  unfold sanitizeUrl. destruct (new_URL url) as [u|]; [|reflexivity].
  destruct (negb _); [reflexivity|]. apply keep_all.
Qed.

End SanitizerFacts.

Section SanitizerClaims.
Import UrlSanitizer.


(** The examples of the specification for [isValidUrl]. *)
Example isValidUrl_examples :
  isValidUrl Url.parse "javascript:alert(1)" = false
  /\ isValidUrl Url.parse "https://example.com/a" = true.
Proof. split; vm_compute; reflexivity. Qed.

(** C5 as stated fails: stripping the parentheses of a valid URL leaves a
    dot segment, which the next pass through the URL parser removes. *)
Lemma C5_sanitizeUrl_not_idempotent :
  sanitizeUrl Url.parse "http://a.com/(.)" = "http://a.com/."
  /\ sanitizeUrl Url.parse (sanitizeUrl Url.parse "http://a.com/(.)") = "http://a.com/"
  /\ sanitizeUrl Url.parse (sanitizeUrl Url.parse "http://a.com/(.)")
     <> sanitizeUrl Url.parse "http://a.com/(.)".
Proof.
  split; [vm_compute; reflexivity|]. split; [vm_compute; reflexivity|].
  vm_compute. discriminate.
Qed.

(** C5 as amended.  With a URL constructor that rejects the empty string,
    a second [sanitizeUrl] changes nothing when the first one gave the
    empty string, and when the first result is itself the serialisation
    of the URL it parses to, of an allowed scheme; the result never holds
    a suspicious character. *)
Theorem C5_sanitizeUrl_idempotent_cases :
  forall (new_URL : string -> option Url.URL),
    new_URL EmptyString = None ->
    forall x : string,
      (sanitizeUrl new_URL x = EmptyString ->
       sanitizeUrl new_URL (sanitizeUrl new_URL x) = sanitizeUrl new_URL x)
      /\ (forall u : Url.URL,
             new_URL (sanitizeUrl new_URL x) = Some u ->
             allowedProtocol (Url.protocol u) = true ->
             Url.toString u = sanitizeUrl new_URL x ->
             sanitizeUrl new_URL (sanitizeUrl new_URL x) = sanitizeUrl new_URL x)
      /\ Url.all (fun c => negb (suspicious c)) (sanitizeUrl new_URL x) = true.
Proof.
  intros new_URL Hempty x. split; [|split].
  - intros ->. unfold sanitizeUrl. now rewrite Hempty.
  - intros u Hu Hp Hs. pose proof (sanitizeUrl_clean new_URL x) as Hclean.
    unfold sanitizeUrl at 1. rewrite Hu, Hp. simpl. rewrite Hs.
    rewrite (stripTags_clean _ Hclean). unfold stripSuspicious. now apply keep_id.
  - apply sanitizeUrl_clean.
Qed.

Lemma C5_sanitizeUrl_idempotent_cases_witness :
  Url.parse EmptyString = None
  /\ sanitizeUrl Url.parse "https://a.com/p'q" = "https://a.com/pq"
  /\ sanitizeUrl Url.parse (sanitizeUrl Url.parse "https://a.com/p'q")
     = sanitizeUrl Url.parse "https://a.com/p'q"
  /\ sanitizeUrl Url.parse (sanitizeUrl Url.parse "not a url")
     = sanitizeUrl Url.parse "not a url".
Proof.
  split; [reflexivity|]. split; [vm_compute; reflexivity|]. split.
  - refine (proj1 (proj2 (C5_sanitizeUrl_idempotent_cases Url.parse eq_refl
                             "https://a.com/p'q"))
                  (Url.mkURL "https" "" "" (Some "a.com") None
                             (Url.Segments ["pq"]) None None) _ _ _);
      vm_compute; reflexivity.
  - refine (proj1 (C5_sanitizeUrl_idempotent_cases Url.parse eq_refl "not a url") _).
    vm_compute. reflexivity.
Defined.

End SanitizerClaims.

(** ** TabOrganizer: grouping *)

Section OrderFacts.
Import TabOrganizer.

Lemma compare_trans_lt (a b c : string) :
  String.compare a b = Lt -> String.compare b c = Lt -> String.compare a c = Lt.
Proof.
  revert b c. induction a as [|x a IH]; intros [|y b] [|z c]; simpl; try discriminate; auto.
  unfold Ascii.compare.
  destruct (N.compare_spec (N_of_ascii x) (N_of_ascii y)) as [Hxy|Hxy|Hxy];
    destruct (N.compare_spec (N_of_ascii y) (N_of_ascii z)) as [Hyz|Hyz|Hyz];
    try discriminate; intros H1 H2.
  - rewrite Hxy, Hyz, N.compare_refl. now apply (IH b).
  - rewrite Hxy. now apply N.compare_lt_iff in Hyz as ->.
  - rewrite <- Hyz. now apply N.compare_lt_iff in Hxy as ->.
  - assert (Hxz : (N_of_ascii x < N_of_ascii z)%N) by lia.
    now apply N.compare_lt_iff in Hxz as ->.
Qed.

#[global] Instance codeUnitOrder_trans : Transitive codeUnitOrder.
Proof.
  intros a b c. unfold codeUnitOrder, String.leb.
  destruct (String.compare a b) eqn:Hab; try discriminate; intros _;
    destruct (String.compare b c) eqn:Hbc; try discriminate; intros _.
  - apply String.compare_eq_iff in Hab, Hbc. subst.
    destruct (String.compare c c) eqn:E; auto.
    pose proof (String.compare_antisym c c) as H. rewrite E in H. discriminate H.
  - apply String.compare_eq_iff in Hab. subst. now rewrite Hbc.
  - apply String.compare_eq_iff in Hbc. subst. now rewrite Hab.
  - now rewrite (compare_trans_lt a b c).
Qed.

End OrderFacts.

Section SortFacts.
Import TabOrganizer.

#[global] Instance codeUnitOrder_total : Total codeUnitOrder.
Proof. intros a b. apply String.leb_total. Qed.

#[global] Instance codeUnitOrder_antisym : AntiSymm (=) codeUnitOrder.
Proof. intros a b. apply String.leb_antisym. Qed.

(** Sorting two duplicate-free lists with the same members gives one
    list. *)
Lemma merge_sort_ext (l1 l2 : list string) :
  NoDup l1 -> NoDup l2 -> (forall x, x ∈ l1 <-> x ∈ l2) ->
  merge_sort codeUnitOrder l1 = merge_sort codeUnitOrder l2.
Proof.
  intros H1 H2 H. apply (StronglySorted_unique codeUnitOrder).
  - apply StronglySorted_merge_sort; apply _.
  - apply StronglySorted_merge_sort; apply _.
  - rewrite !merge_sort_Permutation. now apply NoDup_Permutation.
Qed.

Lemma elem_of_ascending (l : list string) (x : string) : x ∈ ascending l <-> x ∈ l.
Proof.
  unfold ascending. rewrite merge_sort_Permutation. apply elem_of_remove_dups.
Qed.

Lemma NoDup_ascending (l : list string) : NoDup (ascending l).
Proof.
  unfold ascending. rewrite merge_sort_Permutation. apply NoDup_remove_dups.
Qed.

Lemma ascending_sorted (l : list string) : StronglySorted codeUnitOrder (ascending l).
Proof. apply StronglySorted_merge_sort; apply _. Qed.

Lemma ascending_ext (l1 l2 : list string) :
  (forall x, x ∈ l1 <-> x ∈ l2) -> ascending l1 = ascending l2.
Proof.
  intros H. apply merge_sort_ext; try apply NoDup_remove_dups.
  intros x. now rewrite !elem_of_remove_dups.
Qed.

Lemma sortedKeys_ascending {A} (object : gmap string A) (l : list string) :
  (forall x, is_Some (object !! x) <-> x ∈ l) ->
  sortedKeys object = ascending l.
Proof.
  intros H. apply merge_sort_ext.
  - apply NoDup_fst_map_to_list.
  - apply NoDup_remove_dups.
  - intros x. rewrite elem_of_remove_dups, <- H.
    rewrite list_elem_of_fmap. split.
    + intros ([k v] & -> & Hin). apply elem_of_map_to_list in Hin. eauto.
    + intros [v Hv]. exists (x, v). split; [reflexivity|].
      now apply elem_of_map_to_list.
Qed.

End SortFacts.

Section GroupByDomainFacts.
Import TabOrganizer.

Variable new_URL : string -> option Url.URL.

Abbreviation key := (keyOf new_URL).
Abbreviation bucket k tabs := (List.filter (hasKey new_URL k) tabs).

(** The keys of a tab list in the order in which the buckets are put out. *)
Definition keysInOrder (tabs : list Tab) : list (string * string) :=
  flat_map (fun b => map (pair b) (ascending (subdomains new_URL b tabs)))
           (ascending (baseDomains new_URL tabs)).

Lemma elem_of_baseDomains (tabs : list Tab) (b : string) :
  b ∈ baseDomains new_URL tabs <-> exists tab s, tab ∈ tabs /\ key tab = Some (b, s).
Proof.
  unfold baseDomains. rewrite list_elem_of_omap. split.
  - intros (tab & Hin & Hk). destruct (key tab) as [[b' s]|] eqn:E; [|discriminate].
    simpl in Hk. injection Hk as ->. eauto.
  - intros (tab & s & Hin & Hk). exists tab. rewrite Hk. auto.
Qed.

Lemma elem_of_subdomains (tabs : list Tab) (b s : string) :
  s ∈ subdomains new_URL b tabs <-> exists tab, tab ∈ tabs /\ key tab = Some (b, s).
Proof.
  unfold subdomains. rewrite list_elem_of_omap. split.
  - intros (tab & Hin & Hk). destruct (key tab) as [[b' s']|] eqn:E; [|discriminate].
    case_bool_decide; [|discriminate]. injection Hk as ->. subst. eauto.
  - intros (tab & Hin & Hk). exists tab. rewrite Hk.
    now rewrite bool_decide_eq_true_2.
Qed.

Lemma elem_of_keysInOrder (tabs : list Tab) (k : string * string) :
  k ∈ keysInOrder tabs <-> exists tab, tab ∈ tabs /\ key tab = Some k.
Proof.
  unfold keysInOrder. rewrite list_elem_of_In, in_flat_map. split.
  - intros (b & Hb & Hk). apply in_map_iff in Hk as (s & <- & Hs).
    apply list_elem_of_In, elem_of_ascending, elem_of_subdomains in Hs. exact Hs.
  - intros (tab & Hin & Hk). destruct k as [b s]. exists b. split.
    + apply list_elem_of_In, elem_of_ascending, elem_of_baseDomains. eauto.
    + apply in_map, list_elem_of_In, elem_of_ascending, elem_of_subdomains. eauto.
Qed.

Lemma NoDup_keysInOrder (tabs : list Tab) : NoDup (keysInOrder tabs).
Proof.
  unfold keysInOrder.
  generalize (NoDup_ascending (baseDomains new_URL tabs)).
  induction (ascending (baseDomains new_URL tabs)) as [|b bs IH]; simpl; intros Hnd.
  - constructor.
  - apply NoDup_cons in Hnd as [Hb Hnd]. apply NoDup_app. split; [|split].
    + apply NoDup_fmap_2; [|apply NoDup_ascending]. now intros x y [= ].
    + intros [b' s] H1 H2. apply list_elem_of_fmap in H1 as (s' & [= -> ->] & _).
      apply list_elem_of_In, in_flat_map in H2 as (b'' & Hb' & Hin).
      apply in_map_iff in Hin as (s'' & [= -> _] & _). apply Hb.
      now apply list_elem_of_In.
    + now apply IH.
Qed.

Lemma groupByDomain_keysInOrder (tabs : list Tab) :
  groupByDomain new_URL tabs = flat_map (fun k => bucket k tabs) (keysInOrder tabs).
Proof.
  unfold groupByDomain, keysInOrder.
  induction (ascending (baseDomains new_URL tabs)) as [|b bs IH]; simpl; [reflexivity|].
  rewrite flat_map_app, IH. f_equal.
  induction (ascending (subdomains new_URL b tabs)) as [|s ss IHs]; simpl; [reflexivity|].
  now rewrite IHs.
Qed.

(** Selecting one key from the concatenation of all buckets gives the
    bucket of that key. *)
Lemma hasKey_inj (k k' : string * string) (tab : Tab) :
  hasKey new_URL k tab = true -> hasKey new_URL k' tab = true -> k = k'.
Proof.
  unfold hasKey. intros H1 H2. apply bool_decide_eq_true_1 in H1, H2. congruence.
Qed.

Lemma bucket_bucket (k k' : string * string) (tabs : list Tab) :
  bucket k (bucket k' tabs) = if decide (k = k') then bucket k tabs else [].
Proof.
  induction tabs as [|tab tabs IH]; simpl; [now destruct (decide _)|].
  destruct (hasKey new_URL k' tab) eqn:H'; simpl.
  - destruct (hasKey new_URL k tab) eqn:H; rewrite IH.
    + destruct (decide (k = k')) as [|Hne]; [reflexivity|].
      exfalso. apply Hne. now apply (hasKey_inj _ _ tab).
    + destruct (decide (k = k')) as [->|]; [congruence | reflexivity].
  - rewrite IH. destruct (decide (k = k')) as [->|]; [|reflexivity].
    now rewrite H'.
Qed.

Lemma bucket_flat_map (k : string * string) (tabs : list Tab) (ks : list (string * string)) :
  NoDup ks ->
  bucket k (flat_map (fun k' => bucket k' tabs) ks)
  = if decide (k ∈ ks) then bucket k tabs else [].
Proof.
  induction ks as [|k' ks IH]; intros Hnd; simpl.
  - destruct (decide (k ∈ [])) as [Hin|]; [inversion Hin | reflexivity].
  - apply NoDup_cons in Hnd as [Hk' Hnd].
    rewrite List.filter_app, bucket_bucket, (IH Hnd).
    destruct (decide (k = k')) as [->|Hne].
    + destruct (decide (k' ∈ ks)); [contradiction|]. rewrite app_nil_r.
      destruct (decide (k' ∈ k' :: ks)) as [|Hn]; [reflexivity|].
      exfalso. apply Hn. now left.
    + simpl. destruct (decide (k ∈ ks)) as [Hin|Hnin];
        destruct (decide (k ∈ k' :: ks)) as [Hin'|Hnin']; try reflexivity.
      * exfalso. apply Hnin'. now right.
      * apply elem_of_cons in Hin' as [?|?]; contradiction.
Qed.

Lemma bucket_nil (k : string * string) (tabs : list Tab) :
  k ∉ keysInOrder tabs -> bucket k tabs = [].
Proof.
  intros Hk. induction tabs as [|tab tabs IH]; simpl; [reflexivity|].
  destruct (hasKey new_URL k tab) eqn:H.
  - exfalso. apply Hk, elem_of_keysInOrder. exists tab. split; [now left|].
    now apply bool_decide_eq_true_1 in H.
  - apply IH. intros Hin. apply Hk. apply elem_of_keysInOrder in Hin as (t & Ht & Hkt).
    apply elem_of_keysInOrder. exists t. split; [now right | exact Hkt].
Qed.

(** Stable partition: the tabs of one key appear in the output in their
    input order. *)
Lemma bucket_groupByDomain (k : string * string) (tabs : list Tab) :
  bucket k (groupByDomain new_URL tabs) = bucket k tabs.
Proof.
  rewrite groupByDomain_keysInOrder, bucket_flat_map by apply NoDup_keysInOrder.
  destruct (decide (k ∈ keysInOrder tabs)); [reflexivity|].
  symmetry. now apply bucket_nil.
Qed.

Lemma elem_of_groupByDomain (tabs : list Tab) (tab : Tab) :
  tab ∈ groupByDomain new_URL tabs <-> tab ∈ tabs /\ is_Some (key tab).
Proof.
  rewrite groupByDomain_keysInOrder, list_elem_of_In, in_flat_map. split.
  - intros (k & _ & Hin). apply filter_In in Hin as [Hin Hk].
    apply bool_decide_eq_true_1 in Hk. split; [now apply list_elem_of_In | eauto].
  - intros [Hin [k Hk]]. exists k. split.
    + apply list_elem_of_In, elem_of_keysInOrder. eauto.
    + apply filter_In. split; [now apply list_elem_of_In|].
      now apply bool_decide_eq_true_2.
Qed.

Lemma keysInOrder_groupByDomain (tabs : list Tab) :
  keysInOrder (groupByDomain new_URL tabs) = keysInOrder tabs.
Proof.
  assert (Hk : forall k, (exists tab, tab ∈ groupByDomain new_URL tabs /\ key tab = Some k)
                         <-> (exists tab, tab ∈ tabs /\ key tab = Some k)).
  { intros k. split; intros (tab & Hin & Hkey); exists tab.
    - apply elem_of_groupByDomain in Hin as [Hin _]. now split.
    - split; [|exact Hkey]. apply elem_of_groupByDomain. eauto. }
  unfold keysInOrder.
  rewrite (ascending_ext (baseDomains new_URL (groupByDomain new_URL tabs))
                         (baseDomains new_URL tabs)).
  - apply flat_map_ext. intros b. f_equal. apply ascending_ext. intros s.
    rewrite !elem_of_subdomains. apply Hk.
  - intros b. rewrite !elem_of_baseDomains. split.
    + intros (tab & s & H). destruct (proj1 (Hk (b, s))) as (t & ? & ?); eauto.
    + intros (tab & s & H). destruct (proj2 (Hk (b, s))) as (t & ? & ?); eauto.
Qed.

(** The grouping of the specification is idempotent. *)
Lemma groupByDomain_idempotent (tabs : list Tab) :
  groupByDomain new_URL (groupByDomain new_URL tabs) = groupByDomain new_URL tabs.
Proof.
  rewrite (groupByDomain_keysInOrder (groupByDomain new_URL tabs)).
  rewrite keysInOrder_groupByDomain, (groupByDomain_keysInOrder tabs).
  apply flat_map_ext. intros k. rewrite <- groupByDomain_keysInOrder.
  apply bucket_groupByDomain.
Qed.

Lemma flat_map_ext_elem {A B} (f g : A -> list B) (l : list A) :
  (forall x, x ∈ l -> f x = g x) -> flat_map f l = flat_map g l.
Proof.
  induction l as [|x l IH]; intros H; simpl; [reflexivity|].
  rewrite (H x) by (now left). rewrite IH; [reflexivity|].
  intros y Hy. apply H. now right.
Qed.

Lemma flat_map_pick {A} (k0 : string * string) (x : A) (f : string * string -> list A)
    (ks : list (string * string)) :
  NoDup ks -> k0 ∈ ks ->
  flat_map (fun k => if decide (k = k0) then x :: f k else f k) ks
  ≡ₚ x :: flat_map f ks.
Proof.
  induction ks as [|k ks IH]; intros Hnd Hin; [inversion Hin|].
  apply NoDup_cons in Hnd as [Hk Hnd]. simpl.
  destruct (decide (k = k0)) as [->|Hne].
  - simpl. apply Permutation_skip.
    rewrite (flat_map_ext_elem _ f ks); [reflexivity|].
    intros k Hin'. rewrite decide_False; [reflexivity|]. now intros ->.
  - apply elem_of_cons in Hin as [->|Hin]; [contradiction|].
    rewrite (IH Hnd Hin). symmetry. apply Permutation_middle.
Qed.

(** The buckets of a duplicate-free list of keys that covers every tab
    hold every tab once. *)
Lemma buckets_permutation (tabs : list Tab) (ks : list (string * string)) :
  NoDup ks ->
  (forall tab, tab ∈ tabs -> exists k, k ∈ ks /\ key tab = Some k) ->
  flat_map (fun k => bucket k tabs) ks ≡ₚ tabs.
Proof.
  intros Hnd. induction tabs as [|tab tabs IH]; intros Hcover; simpl.
  - clear Hnd Hcover. induction ks as [|k ks IHk]; simpl; [reflexivity | exact IHk].
  - destruct (Hcover tab) as (k0 & Hin & Hk0); [now left|].
    rewrite (flat_map_ext_elem _
               (fun k => if decide (k = k0) then tab :: bucket k tabs else bucket k tabs)).
    + rewrite (flat_map_pick k0 tab _ ks Hnd Hin). apply Permutation_skip.
      apply IH. intros t Ht. apply Hcover. now right.
    + intros k _. unfold hasKey. rewrite Hk0.
      destruct (decide (k = k0)) as [->|Hne].
      * now rewrite bool_decide_eq_true_2.
      * rewrite bool_decide_eq_false_2; [reflexivity|]. now intros [= ->].
Qed.

(** When every URL parses, the grouping of the specification is a
    permutation of the tab list. *)
Lemma groupByDomain_permutation (tabs : list Tab) :
  (forall tab, tab ∈ tabs -> is_Some (key tab)) ->
  groupByDomain new_URL tabs ≡ₚ tabs.
Proof.
  intros Hall. rewrite groupByDomain_keysInOrder.
  apply buckets_permutation; [apply NoDup_keysInOrder|].
  intros tab Hin. destruct (Hall tab Hin) as [k Hk]. exists k. split; [|exact Hk].
  apply elem_of_keysInOrder. eauto.
Qed.

End GroupByDomainFacts.

Section GroupTabsFacts.
Import TabOrganizer.

Variable new_URL : string -> option Url.URL.

Abbreviation key := (keyOf new_URL).
Abbreviation bucket k tabs := (List.filter (hasKey new_URL k) tabs).

(** The array [groupedTabs[b][s]], empty when there is none. *)
Definition bucketOf (groups : gmap string (gmap string (list Tab))) (b s : string)
  : list Tab :=
  default [] (groups !! b ≫= fun inner => inner !! s).

(** What holds of the first pass after the tabs [seen], none of which has
    a key that names an inherited property. *)
Record group_inv (seen : list Tab) (g : Grouping) : Prop := {
    gi_clean : polluted g = false;
    gi_bucket : forall b s, bucketOf (groupedTabs g) b s = bucket (b, s) seen;
    gi_nonempty : forall b inner s l,
        groupedTabs g !! b = Some inner -> inner !! s = Some l -> l <> [];
    gi_inner : forall b inner, groupedTabs g !! b = Some inner -> inner <> ∅
}.

Lemma group_inv_init : group_inv [] (mkGrouping ∅ false).
Proof.
  constructor; simpl; try reflexivity.
  - intros b inner s l H. now rewrite lookup_empty in H.
  - intros b inner H. now rewrite lookup_empty in H.
Qed.

Lemma bucket_snoc (k : string * string) (seen : list Tab) (tab : Tab) :
  bucket k (seen ++ [tab])
  = bucket k seen ++ (if hasKey new_URL k tab then [tab] else []).
Proof. rewrite List.filter_app. simpl. now destruct (hasKey new_URL k tab). Qed.

Lemma group_inv_step (seen : list Tab) (g : Grouping) (tab : Tab) (b s : string) :
  group_inv seen g ->
  key tab = Some (b, s) -> inherited b = false -> inherited s = false ->
  exists g', groupTab new_URL (Some g) tab = Some g' /\ group_inv (seen ++ [tab]) g'.
Proof.
  intros [Hclean Hbucket Hne Hinner] Hkey Hb Hs.
  destruct g as [M p]. simpl in *. subst p.
  unfold keyOf in Hkey. unfold groupTab. simpl.
  destruct (new_URL (url tab)) as [u|] eqn:Hu; [|discriminate]. simpl in *.
  injection Hkey as Hbu Hsu. unfold place. rewrite Hbu, Hsu. simpl.
  assert (Hhas : forall b0 s0, hasKey new_URL (b0, s0) tab
                               = bool_decide ((b, s) = (b0, s0))).
  { intros b0 s0. unfold hasKey, keyOf. rewrite Hu. simpl. rewrite Hbu, Hsu.
    apply bool_decide_ext. split; congruence. }
  set (inner := default ∅ (M !! b)).
  set (old := default [] (inner !! s)).
  assert (Hold : old = bucket (b, s) seen).
  { rewrite <- Hbucket. unfold old, inner, bucketOf.
    destruct (M !! b) as [i|]; simpl; [reflexivity | now rewrite lookup_empty]. }
  exists (mkGrouping (<[b := <[s := old ++ [tab]]> inner]> M) false).
  split.
  - unfold readProperty at 1. unfold old, inner. rewrite Hb. simpl.
    destruct (M !! b) as [i|]; simpl; unfold readProperty; rewrite ?lookup_empty, ?Hs; simpl.
    + destruct (i !! s); reflexivity.
    + reflexivity.
  - constructor; simpl.
    + reflexivity.
    + intros b0 s0. rewrite bucket_snoc, Hhas, <- Hbucket. unfold bucketOf.
      destruct (decide (b = b0)) as [<-|Hnb].
      * rewrite lookup_insert_eq. simpl. destruct (decide (s = s0)) as [<-|Hns].
        -- rewrite lookup_insert_eq, bool_decide_eq_true_2 by reflexivity. simpl.
           f_equal. rewrite Hold, <- Hbucket. reflexivity.
        -- rewrite lookup_insert_ne by exact Hns.
           rewrite bool_decide_eq_false_2 by congruence. rewrite app_nil_r.
           unfold inner. destruct (M !! b); simpl; [reflexivity | now rewrite lookup_empty].
      * rewrite lookup_insert_ne by exact Hnb.
        rewrite bool_decide_eq_false_2 by congruence. now rewrite app_nil_r.
    + intros b0 inner0 s0 l. rewrite lookup_insert. case_decide as Hb0.
      * intros [= <-]. rewrite lookup_insert. case_decide as Hs0.
        -- intros [= <-]. now destruct old.
        -- unfold inner. destruct (M !! b) as [i|] eqn:E; simpl.
           ++ apply (Hne b i). exact E.
           ++ now rewrite lookup_empty.
      * apply Hne.
    + intros b0 inner0. rewrite lookup_insert. case_decide as Hb0.
      * intros [= <-]. apply insert_non_empty.
      * apply Hinner.
Qed.

Lemma group_inv_firstPass (tabs : list Tab) :
  ownKeysOnly new_URL tabs ->
  exists g, firstPassGroups new_URL tabs = Some g /\ group_inv tabs g.
Proof.
  unfold firstPassGroups. induction tabs as [|tab seen IH] using rev_ind; intros Hown.
  - exists (mkGrouping ∅ false). split; [reflexivity | apply group_inv_init].
  - destruct IH as (g & Hg & Inv).
    { intros t Ht. apply Hown. apply elem_of_app. now left. }
    destruct (Hown tab) as (b & s & Hk & Hb & Hs).
    { apply elem_of_app. right. now left. }
    rewrite fold_left_app, Hg. simpl.
    exact (group_inv_step seen g tab b s Inv Hk Hb Hs).
Qed.

Lemma bucket_nonempty (k : string * string) (tabs : list Tab) :
  bucket k tabs <> [] <-> exists tab, tab ∈ tabs /\ key tab = Some k.
Proof.
  split.
  - intros H. destruct (bucket k tabs) as [|tab l] eqn:E; [contradiction|].
    assert (Hin : In tab (bucket k tabs)) by (rewrite E; now left).
    apply filter_In in Hin as [Hin Hk]. exists tab.
    split; [now apply list_elem_of_In | now apply bool_decide_eq_true_1 in Hk].
  - intros (tab & Hin & Hk) E.
    assert (Hin' : In tab (bucket k tabs)).
    { apply filter_In. split; [now apply list_elem_of_In|].
      now apply bool_decide_eq_true_2. }
    rewrite E in Hin'. exact Hin'.
Qed.

(** After a first pass that met no inherited name, the second pass puts
    out the grouping of the specification. *)
Lemma newOrder_groupByDomain (tabs : list Tab) (g : Grouping) :
  group_inv tabs g -> newOrder (groupedTabs g) = groupByDomain new_URL tabs.
Proof.
  intros [_ Hbucket Hne Hinner]. unfold newOrder, groupByDomain.
  assert (Hsub : forall b inner, groupedTabs g !! b = Some inner ->
                 forall s, is_Some (inner !! s) <-> s ∈ subdomains new_URL b tabs).
  { intros b inner Hb s. rewrite elem_of_subdomains, <- bucket_nonempty, <- Hbucket.
    unfold bucketOf. rewrite Hb. simpl. split.
    - intros [l Hl]. rewrite Hl. simpl. now apply (Hne b inner s).
    - destruct (inner !! s); [eauto | simpl; congruence]. }
  assert (Hbase : forall b, is_Some (groupedTabs g !! b) <-> b ∈ baseDomains new_URL tabs).
  { intros b. rewrite elem_of_baseDomains. split.
    - intros [inner Hb]. destruct (map_choose inner (Hinner b inner Hb)) as (s & l & Hl).
      assert (Hs : s ∈ subdomains new_URL b tabs) by (apply (Hsub b inner Hb); eauto).
      apply elem_of_subdomains in Hs as (tab & ? & ?). eauto.
    - intros (tab & s & Hin & Hk).
      assert (Hn : bucketOf (groupedTabs g) b s <> []).
      { rewrite Hbucket. apply bucket_nonempty. eauto. }
      unfold bucketOf in Hn. destruct (groupedTabs g !! b); [eauto | now simpl in Hn]. }
  rewrite (sortedKeys_ascending _ _ Hbase).
  apply flat_map_ext_elem. intros b Hb.
  apply elem_of_ascending, Hbase in Hb as [inner Hb]. rewrite Hb.
  rewrite (sortedKeys_ascending _ _ (Hsub b inner Hb)).
  apply flat_map_ext. intros s. rewrite <- Hbucket. unfold bucketOf. now rewrite Hb.
Qed.

(** On tab lists that meet no inherited name, [groupTabs] returns the
    grouping of the specification. *)
Lemma groupTabs_groupByDomain (tabs : list Tab) :
  ownKeysOnly new_URL tabs ->
  groupTabs new_URL tabs = Some (groupByDomain new_URL tabs).
Proof.
  intros Hown. destruct (group_inv_firstPass tabs Hown) as (g & Hg & Inv).
  unfold groupTabs. rewrite Hg. simpl. f_equal. now apply newOrder_groupByDomain.
Qed.

Lemma ownKeysOnly_groupByDomain (tabs : list Tab) :
  ownKeysOnly new_URL tabs -> ownKeysOnly new_URL (groupByDomain new_URL tabs).
Proof.
  intros Hown tab Hin. apply Hown. now apply elem_of_groupByDomain in Hin as [? _].
Qed.

Lemma groupTabs_permutation (tabs : list Tab) :
  ownKeysOnly new_URL tabs ->
  exists out, groupTabs new_URL tabs = Some out /\ out ≡ₚ tabs.
Proof.
  intros Hown. exists (groupByDomain new_URL tabs).
  split; [now apply groupTabs_groupByDomain|].
  apply groupByDomain_permutation. intros tab Hin.
  destruct (Hown tab Hin) as (b & s & Hk & _). eauto.
Qed.

Lemma groupTabs_idempotent (tabs out : list Tab) :
  ownKeysOnly new_URL tabs ->
  groupTabs new_URL tabs = Some out ->
  groupTabs new_URL out = Some out.
Proof.
  intros Hown Hout. rewrite (groupTabs_groupByDomain tabs Hown) in Hout.
  injection Hout as <-.
  rewrite (groupTabs_groupByDomain _ (ownKeysOnly_groupByDomain tabs Hown)).
  now rewrite groupByDomain_idempotent.
Qed.

(** *** What the pass returns on any tab list

    Without the assumption on the keys the pass may drop tabs; what it
    returns is still the grouping of the tabs it kept. *)

Lemma bucketOf_push (groups : gmap string (gmap string (list Tab)))
    (b s : string) (tab : Tab) (b0 s0 : string) :
  bucketOf (<[b := <[s := bucketOf groups b s ++ [tab]]> (default ∅ (groups !! b))]> groups)
           b0 s0
  = bucketOf groups b0 s0 ++ (if bool_decide ((b, s) = (b0, s0)) then [tab] else []).
Proof.
  unfold bucketOf. destruct (decide (b = b0)) as [<-|Hnb].
  - rewrite lookup_insert_eq. simpl. destruct (decide (s = s0)) as [<-|Hns].
    + rewrite lookup_insert_eq, bool_decide_eq_true_2 by reflexivity. reflexivity.
    + rewrite lookup_insert_ne by exact Hns.
      rewrite bool_decide_eq_false_2 by congruence. rewrite app_nil_r.
      destruct (groups !! b); simpl; [reflexivity | now rewrite lookup_empty].
  - rewrite lookup_insert_ne by exact Hnb.
    rewrite bool_decide_eq_false_2 by congruence. now rewrite app_nil_r.
Qed.

Record kept_inv (kept : list Tab) (g : Grouping) : Prop := {
  ki_bucket : forall b s, bucketOf (groupedTabs g) b s = bucket (b, s) kept;
  ki_nonempty : forall b inner s l,
      groupedTabs g !! b = Some inner -> inner !! s = Some l -> l <> [];
  ki_keys : forall tab, tab ∈ kept -> is_Some (key tab)
}.

Lemma kept_inv_push (kept : list Tab) (groups : gmap string (gmap string (list Tab)))
    (p : bool) (tab : Tab) (b s : string) :
  kept_inv kept (mkGrouping groups p) ->
  key tab = Some (b, s) ->
  kept_inv (kept ++ [tab])
           (mkGrouping
              (<[b := <[s := bucketOf groups b s ++ [tab]]> (default ∅ (groups !! b))]> groups)
              p).
Proof.
  intros [Hbucket Hne Hkeys] Hkey. simpl in *. constructor; simpl.
  - intros b0 s0. rewrite bucketOf_push, bucket_snoc, Hbucket. f_equal.
    unfold hasKey. rewrite Hkey.
    destruct (decide ((b, s) = (b0, s0))) as [Heq|Hneq].
    + rewrite !bool_decide_eq_true_2; congruence.
    + rewrite !bool_decide_eq_false_2; congruence.
  - intros b0 inner0 s1 l. rewrite lookup_insert. case_decide as Hb0.
    + intros [= <-]. rewrite lookup_insert. case_decide as Hs0.
      * intros [= <-]. now destruct (bucketOf groups b s).
      * destruct (groups !! b) as [i|] eqn:E; simpl.
        -- apply (Hne b i). exact E.
        -- now rewrite lookup_empty.
    + apply Hne.
  - intros t [Ht|Ht]%elem_of_app; [now apply Hkeys|].
    apply list_elem_of_singleton in Ht as ->. rewrite Hkey. eauto.
Qed.

Lemma place_kept (kept : list Tab) (g g' : Grouping) (tab : Tab) (u : Url.URL) :
  kept_inv kept g ->
  new_URL (url tab) = Some u ->
  place g (Url.hostname u) tab = Some g' ->
  kept_inv kept g' \/ kept_inv (kept ++ [tab]) g'.
Proof.
  intros Inv Hu. destruct g as [M p].
  assert (Hkey : key tab = Some (baseDomainOf (Url.hostname u), subdomainOf (Url.hostname u))).
  { unfold keyOf. now rewrite Hu. }
  pose proof (kept_inv_push kept M p tab _ _ Inv Hkey) as Hpush.
  revert Hpush Hkey. unfold place. simpl.
  generalize (baseDomainOf (Url.hostname u)) (subdomainOf (Url.hostname u)).
  intros b s Hpush Hkey. unfold bucketOf in Hpush.
  unfold readProperty at 1. destruct (M !! b) as [inner|] eqn:Hb; simpl in *.
  - unfold readProperty. destruct (inner !! s) as [l|] eqn:Hs; simpl in *.
    + intros [= <-]. now right.
    + destruct (inherited s || p && String.eqb s EmptyString).
      * destruct (inherited s); [discriminate|]. intros [= <-]. left.
        now rewrite insert_id.
      * intros [= <-]. now right.
  - destruct (inherited b || p && String.eqb b EmptyString).
    + intros [= <-]. left. destruct Inv as [Hbucket Hne Hkeys]. now constructor.
    + unfold readProperty. rewrite lookup_empty in *. simpl in *.
      destruct (inherited s || p && String.eqb s EmptyString).
      * destruct (inherited s); [discriminate|]. intros [= <-]. left.
        destruct Inv as [Hbucket Hne Hkeys]. simpl in *. constructor; simpl.
        -- intros b0 s0. rewrite <- Hbucket. unfold bucketOf.
           destruct (decide (b = b0)) as [<-|Hnb].
           ++ rewrite lookup_insert_eq, Hb. simpl. now rewrite lookup_empty.
           ++ now rewrite lookup_insert_ne.
        -- intros b0 inner0 s0 l. rewrite lookup_insert. case_decide.
           ++ intros [= <-]. now rewrite lookup_empty.
           ++ apply Hne.
        -- exact Hkeys.
      * intros [= <-]. now right.
Qed.

Lemma firstPassGroups_kept (tabs : list Tab) (g : Grouping) :
  firstPassGroups new_URL tabs = Some g ->
  exists kept, kept `sublist_of` tabs /\ kept_inv kept g.
Proof.
  unfold firstPassGroups. revert g.
  induction tabs as [|tab seen IH] using rev_ind; intros g.
  - simpl. intros [= <-]. exists []. split; [constructor|].
    constructor; simpl; [reflexivity| |].
    + intros b inner s l H. now rewrite lookup_empty in H.
    + intros tab H. inversion H.
  - rewrite fold_left_app. simpl.
    destruct (fold_left (groupTab new_URL) seen (Some (mkGrouping ∅ false)))
      as [g0|]; [|discriminate].
    destruct (IH g0 eq_refl) as (kept & Hsub & Inv).
    unfold groupTab. simpl.
    destruct (new_URL (url tab)) as [u|] eqn:Hu; [|discriminate]. simpl.
    intros Hplace. destruct (place_kept kept g0 g tab u Inv Hu Hplace) as [Inv'|Inv'].
    + exists kept. split; [now apply sublist_inserts_r | exact Inv'].
    + exists (kept ++ [tab]). split; [|exact Inv'].
      apply sublist_app; [exact Hsub | reflexivity].
Qed.

Lemma StronglySorted_filter {A} (R : relation A) (p : A -> bool) (l : list A) :
  StronglySorted R l -> StronglySorted R (List.filter p l).
Proof.
  induction 1 as [|x l Hs IH Hx]; simpl; [constructor|].
  destruct (p x); [|exact IH]. constructor; [exact IH|].
  rewrite List.Forall_forall in *. intros y Hy. apply Hx.
  now apply filter_In in Hy as [? _].
Qed.

Lemma flat_map_filter_nil {A B} (f : A -> list B) (p : A -> bool) (l : list A) :
  (forall x, x ∈ l -> p x = false -> f x = []) ->
  flat_map f l = flat_map f (List.filter p l).
Proof.
  induction l as [|x l IH]; intros H; simpl; [reflexivity|].
  rewrite IH by (intros y Hy; apply H; now right).
  destruct (p x) eqn:Hp; simpl; [reflexivity|].
  rewrite (H x) by (now left || exact Hp). reflexivity.
Qed.

Lemma newOrder_kept (kept : list Tab) (g : Grouping) :
  kept_inv kept g -> newOrder (groupedTabs g) = groupByDomain new_URL kept.
Proof.
  intros [Hbucket Hne _]. unfold newOrder, groupByDomain.
  assert (Hsub : forall b inner, groupedTabs g !! b = Some inner ->
                 forall s, is_Some (inner !! s) <-> s ∈ subdomains new_URL b kept).
  { intros b inner Hb s. rewrite elem_of_subdomains, <- bucket_nonempty, <- Hbucket.
    unfold bucketOf. rewrite Hb. simpl. split.
    - intros [l Hl]. rewrite Hl. simpl. now apply (Hne b inner s).
    - destruct (inner !! s); [eauto | simpl; congruence]. }
  assert (Hbase : forall b, b ∈ baseDomains new_URL kept -> is_Some (groupedTabs g !! b)).
  { intros b (tab & s & Hin & Hk)%elem_of_baseDomains.
    assert (Hn : bucketOf (groupedTabs g) b s <> []).
    { rewrite Hbucket. apply bucket_nonempty. eauto. }
    unfold bucketOf in Hn. destruct (groupedTabs g !! b); [eauto | now simpl in Hn]. }
  assert (Hempty : forall b inner,
             groupedTabs g !! b = Some inner -> b ∉ baseDomains new_URL kept ->
             sortedKeys inner = []).
  { intros b inner Hb Hnot.
    rewrite (sortedKeys_ascending inner []); [reflexivity|].
    intros s. split; [|intros H; inversion H].
    intros Hs. exfalso. apply Hnot.
    apply (Hsub b inner Hb), elem_of_subdomains in Hs as (tab & ? & ?).
    apply elem_of_baseDomains. eauto. }
  set (inBase := fun b => bool_decide (b ∈ baseDomains new_URL kept)).
  rewrite (flat_map_filter_nil _ inBase).
  - assert (Hkeys : List.filter inBase (sortedKeys (groupedTabs g))
                    = ascending (baseDomains new_URL kept)).
    { apply (StronglySorted_unique codeUnitOrder).
      - apply StronglySorted_filter, StronglySorted_merge_sort; apply _.
      - apply ascending_sorted.
      - apply NoDup_Permutation.
        + apply NoDup_ListNoDup, List.NoDup_filter, NoDup_ListNoDup.
          unfold sortedKeys. rewrite merge_sort_Permutation.
          apply NoDup_fst_map_to_list.
        + apply NoDup_ascending.
        + intros b. rewrite elem_of_ascending, list_elem_of_In, filter_In.
          unfold inBase. rewrite bool_decide_eq_true, <- list_elem_of_In.
          unfold sortedKeys. rewrite merge_sort_Permutation, list_elem_of_fmap.
          split; [tauto|]. intros Hb. split; [|exact Hb].
          destruct (Hbase b Hb) as [inner Hi]. exists (b, inner).
          split; [reflexivity | now apply elem_of_map_to_list]. }
    rewrite Hkeys. apply flat_map_ext_elem. intros b Hb.
    apply (proj1 (elem_of_ascending _ _)) in Hb.
    destruct (Hbase b Hb) as [inner Hi]. rewrite Hi.
    rewrite (sortedKeys_ascending _ _ (Hsub b inner Hi)).
    apply flat_map_ext. intros s. rewrite <- Hbucket. unfold bucketOf. now rewrite Hi.
  - intros b _ Hb. apply bool_decide_eq_false_1 in Hb.
    destruct (groupedTabs g !! b) as [inner|] eqn:Hi; [|reflexivity].
    now rewrite (Hempty b inner Hi Hb).
Qed.

(** Whatever [groupTabs] returns is the grouping, in the order of the
    specification, of a sub-list of the tabs: tabs may be missing from
    it, none is added, repeated or out of order. *)
Lemma groupTabs_kept (tabs out : list Tab) :
  groupTabs new_URL tabs = Some out ->
  exists kept, kept `sublist_of` tabs
               /\ out = groupByDomain new_URL kept
               /\ out ≡ₚ kept.
Proof.
  unfold groupTabs. destruct (firstPassGroups new_URL tabs) as [g|] eqn:Hg; [|discriminate].
  simpl. intros [= <-]. destruct (firstPassGroups_kept tabs g Hg) as (kept & Hsub & Inv).
  exists kept. split; [exact Hsub|].
  rewrite (newOrder_kept kept g Inv). split; [reflexivity|].
  apply groupByDomain_permutation. apply (ki_keys kept g Inv).
Qed.

End GroupTabsFacts.

Section GroupingClaims.
Import TabOrganizer.

(** C2.  On a tab list none of whose keys names a property inherited from
    [Object.prototype], [groupTabs] returns a permutation of the list
    (same tabs, same ids with multiplicity, same length) and returns its
    own output unchanged.  On any tab list, what it returns is a
    permutation of a sub-list of the tabs.  On a list with a tab at
    [http://constructor/], whose URL parses, the tab is missing from the
    returned order. *)
Theorem C2_groupTabs_permutation_idempotent :
  (forall (new_URL : string -> option Url.URL) (tabs : list Tab),
      ownKeysOnly new_URL tabs ->
      exists out,
        groupTabs new_URL tabs = Some out
        /\ out ≡ₚ tabs
        /\ map id out ≡ₚ map id tabs
        /\ length out = length tabs
        /\ groupTabs new_URL out = Some out)
  /\ (forall (new_URL : string -> option Url.URL) (tabs out : list Tab),
         groupTabs new_URL tabs = Some out ->
         exists kept, kept `sublist_of` tabs /\ out ≡ₚ kept)
  /\ (keyOf Url.parse (mkTab 1 "http://constructor/") = Some ("constructor", EmptyString)
      /\ keyOf Url.parse (mkTab 2 "https://a.org/") = Some ("a.org", EmptyString)
      /\ groupTabs Url.parse [mkTab 1 "http://constructor/"; mkTab 2 "https://a.org/"]
         = Some [mkTab 2 "https://a.org/"]).
Proof.
  split; [|split].
  - intros new_URL tabs Hown.
    destruct (groupTabs_permutation new_URL tabs Hown) as (out & Hout & Hperm).
    exists out. split; [exact Hout|]. split; [exact Hperm|].
    split; [now apply Permutation_map|]. split; [now apply Permutation_length|].
    now apply (groupTabs_idempotent new_URL tabs).
  - intros new_URL tabs out Hout.
    destruct (groupTabs_kept new_URL tabs out Hout) as (kept & Hsub & _ & Hperm).
    exists kept. now split.
  - repeat split; vm_compute; reflexivity.
Qed.

Lemma ownKeysOnly_example :
  ownKeysOnly Url.parse
    [mkTab 1 "https://b.example.com/x"; mkTab 2 "https://a.org/";
     mkTab 3 "https://example.com/"; mkTab 4 "https://a.example.com/";
     mkTab 5 "https://b.example.com/y"; mkTab 6 "http://localhost:3000/"].
Proof.
  intros tab Hin.
  repeat (apply elem_of_cons in Hin as [->|Hin];
          [eexists _, _; vm_compute; repeat split; reflexivity|]).
  inversion Hin.
Qed.

Lemma C2_groupTabs_permutation_idempotent_witness :
  let tabs := [mkTab 1 "https://b.example.com/x"; mkTab 2 "https://a.org/";
               mkTab 3 "https://example.com/"; mkTab 4 "https://a.example.com/";
               mkTab 5 "https://b.example.com/y"; mkTab 6 "http://localhost:3000/"] in
  ownKeysOnly Url.parse tabs
  /\ exists out,
      groupTabs Url.parse tabs = Some out
      /\ out ≡ₚ tabs
      /\ map id out ≡ₚ map id tabs
      /\ length out = length tabs
      /\ groupTabs Url.parse out = Some out.
Proof.
  intros tabs. split; [exact ownKeysOnly_example|].
  exact (proj1 C2_groupTabs_permutation_idempotent Url.parse tabs ownKeysOnly_example).
Defined.

(** C6.  On a tab list none of whose keys names a property inherited from
    [Object.prototype], [groupTabs] puts out the buckets by ascending base
    domain and, within one base domain, by ascending subdomain, each
    bucket holding the tabs of its key in their input order.  On any tab
    list, what it puts out is that arrangement of a sub-list of the tabs.
    On a list with a tab at [http://constructor.example.com/], whose URL
    parses, the pass throws and nothing is put out. *)
Theorem C6_groupTabs_bucket_order :
  (forall (new_URL : string -> option Url.URL) (tabs : list Tab),
      ownKeysOnly new_URL tabs ->
      groupTabs new_URL tabs
      = Some (flat_map
                (fun b =>
                   flat_map (fun s => List.filter (hasKey new_URL (b, s)) tabs)
                            (ascending (subdomains new_URL b tabs)))
                (ascending (baseDomains new_URL tabs)))
      /\ forall k out,
          groupTabs new_URL tabs = Some out ->
          List.filter (hasKey new_URL k) out = List.filter (hasKey new_URL k) tabs)
  /\ (forall (new_URL : string -> option Url.URL) (tabs out : list Tab),
         groupTabs new_URL tabs = Some out ->
         exists kept,
           kept `sublist_of` tabs
           /\ out = flat_map
                      (fun b =>
                         flat_map (fun s => List.filter (hasKey new_URL (b, s)) kept)
                                  (ascending (subdomains new_URL b kept)))
                      (ascending (baseDomains new_URL kept)))
  /\ (forall l : list string,
         StronglySorted codeUnitOrder (ascending l)
         /\ NoDup (ascending l)
         /\ forall x, x ∈ ascending l <-> x ∈ l)
  /\ (keyOf Url.parse (mkTab 1 "http://constructor.example.com/")
      = Some ("example.com", "constructor")
      /\ keyOf Url.parse (mkTab 2 "https://a.org/") = Some ("a.org", EmptyString)
      /\ groupTabs Url.parse
           [mkTab 1 "http://constructor.example.com/"; mkTab 2 "https://a.org/"]
         = None).
Proof.
  split; [|split; [|split]].
  - intros new_URL tabs Hown. split.
    + apply (groupTabs_groupByDomain new_URL tabs Hown).
    + intros k out Hout. rewrite (groupTabs_groupByDomain new_URL tabs Hown) in Hout.
      injection Hout as <-. apply bucket_groupByDomain.
  - intros new_URL tabs out Hout.
    destruct (groupTabs_kept new_URL tabs out Hout) as (kept & Hsub & Heq & _).
    exists kept. now split.
  - intros l. split; [apply ascending_sorted|].
    split; [apply NoDup_ascending | apply elem_of_ascending].
  - repeat split; vm_compute; reflexivity.
Qed.

Lemma C6_groupTabs_bucket_order_witness :
  let tabs := [mkTab 1 "https://b.example.com/x"; mkTab 2 "https://a.org/";
               mkTab 3 "https://example.com/"; mkTab 4 "https://a.example.com/";
               mkTab 5 "https://b.example.com/y"; mkTab 6 "http://localhost:3000/"] in
  ownKeysOnly Url.parse tabs
  /\ groupTabs Url.parse tabs
     = Some [mkTab 2 "https://a.org/"; mkTab 3 "https://example.com/";
             mkTab 4 "https://a.example.com/"; mkTab 1 "https://b.example.com/x";
             mkTab 5 "https://b.example.com/y"; mkTab 6 "http://localhost:3000/"].
Proof.
  intros tabs. split; [exact ownKeysOnly_example|].
  rewrite (proj1 (proj1 C6_groupTabs_bucket_order Url.parse tabs ownKeysOnly_example)).
  vm_compute. reflexivity.
Defined.

End GroupingClaims.

(** ** Facts about texts and arrays *)

Section TextFacts.

Lemma string_length_app (s t : string) :
  String.length (s +:+ t) = (String.length s + String.length t)%nat.
Proof. induction s as [|c s IH]; simpl; [reflexivity | now rewrite IH]. Qed.

Lemma string_app_assoc (s t u : string) : (s +:+ t) +:+ u = s +:+ (t +:+ u).
Proof.
  induction s as [|c s IH]; [reflexivity|].
  change (String c ((s +:+ t) +:+ u) = String c (s +:+ (t +:+ u))).
  now rewrite IH.
Qed.


Lemma substring_prefix_length (n : nat) (s : string) :
  (n <= String.length s)%nat -> String.length (String.substring 0 n s) = n.
Proof.
  revert s. induction n as [|n IH]; intros s Hn.
  - now destruct s.
  - destruct s as [|c s]; simpl in *; [lia|]. rewrite IH; [reflexivity | lia].
Qed.


Lemma isChar_eq (c d : ascii) : Url.isChar c d = true -> c = d.
Proof.
  unfold Url.isChar, Js.code. intros H. apply N.eqb_eq in H.
  rewrite <- (ascii_N_embedding c), <- (ascii_N_embedding d). now rewrite H.
Qed.

Lemma splitOn_nonempty (sep : ascii -> bool) (s : string) : Url.splitOn sep s <> [].
Proof.
  destruct s as [|c s]; simpl; [discriminate|].
  destruct (sep c); [discriminate|]. destruct (Url.splitOn sep s); discriminate.
Qed.

Lemma join_cons (sep x : string) (l : list string) :
  l <> [] -> Url.join sep (x :: l) = x +:+ sep +:+ Url.join sep l.
Proof. destruct l; [contradiction | reflexivity]. Qed.

Lemma join_app (sep : string) (l1 l2 : list string) :
  l1 <> [] -> l2 <> [] ->
  Url.join sep (l1 ++ l2) = Url.join sep l1 +:+ sep +:+ Url.join sep l2.
Proof.
  intros H1 H2. induction l1 as [|x l1 IH]; [contradiction|].
  destruct l1 as [|y l1].
  - simpl. now apply join_cons.
  - change ((x :: y :: l1) ++ l2) with (x :: ((y :: l1) ++ l2)).
    rewrite join_cons by discriminate. rewrite IH by discriminate.
    rewrite (join_cons sep x (y :: l1)) by discriminate.
    now rewrite !string_app_assoc.
Qed.


(** Splitting at the dots and joining with dots gives the text back. *)
Lemma join_splitOn (s : string) :
  Url.join "." (Url.splitOn (Url.isChar ".") s) = s.
Proof.
  induction s as [|c s IH]; [reflexivity|]. simpl.
  destruct (Url.isChar "." c) eqn:Hc.
  - apply isChar_eq in Hc as <-.
    rewrite join_cons by apply splitOn_nonempty. now rewrite IH.
  - pose proof (splitOn_nonempty (Url.isChar ".") s) as Hne.
    destruct (Url.splitOn (Url.isChar ".") s) as [|piece pieces]; [contradiction|].
    rewrite <- IH. destruct pieces; reflexivity.
Qed.

End TextFacts.

Section ArrayFacts.

Lemma splice_lookup_before {A} (index count j : nat) (l : list A) :
  (j < index)%nat -> JsText.splice index count l !! j = l !! j.
Proof.
  intros Hj. unfold JsText.splice.
  destruct (decide (j < length l)%nat) as [Hlt|Hge].
  - rewrite lookup_app_l by (rewrite length_take; lia).
    now rewrite lookup_take_lt by lia.
  - rewrite (lookup_ge_None_2 l j) by lia.
    apply lookup_ge_None_2. rewrite length_app, length_take, length_drop. lia.
Qed.

Lemma splice_lookup_after {A} (index count j : nat) (l : list A) :
  (index <= j)%nat -> JsText.splice index count l !! j = l !! (j + count)%nat.
Proof.
  intros Hj. unfold JsText.splice.
  destruct (decide (index <= length l)%nat) as [Hle|Hgt].
  - rewrite lookup_app_r by (rewrite length_take; lia).
    rewrite length_take, lookup_drop. f_equal. lia.
  - rewrite take_ge, drop_ge by lia. rewrite app_nil_r.
    rewrite !lookup_ge_None_2 by lia. reflexivity.
Qed.

Lemma splice_length {A} (index : nat) (l : list A) :
  length (JsText.splice index 1 l)
  = if (index <? length l)%nat then (length l - 1)%nat else length l.
Proof.
  unfold JsText.splice. rewrite length_app, length_take, length_drop.
  destruct (Nat.ltb_spec index (length l)); lia.
Qed.

Lemma assignAt_in_range {A} (index : nat) (x : A) (array : list A) :
  (index < length array)%nat ->
  JsText.assignAt index x array = Some <$> <[index := x]> array.
Proof.
  intros Hi. unfold JsText.assignAt.
  destruct (Nat.ltb_spec index (length array)); [|lia].
  now rewrite list_fmap_insert.
Qed.


Lemma NoDup_List_filter {A} (f : A -> bool) (l : list A) :
  NoDup l -> NoDup (List.filter f l).
Proof.
  induction 1 as [|x l Hx Hl IH]; simpl; [constructor|].
  destruct (f x); [|exact IH]. constructor; [|exact IH].
  intros Hin. apply Hx. apply list_elem_of_In in Hin. apply filter_In in Hin as [Hin _].
  now apply list_elem_of_In.
Qed.




End ArrayFacts.

(** [Array.prototype.sort]: the result is a permutation, and it is sorted
    for a comparator that decides a transitive order. *)

Section ArraySortFacts.

Context {A : Type} (comparefn : A -> A -> Z).



Context (R : A -> A -> Prop) `{!Transitive R}.
Hypothesis after : forall x y, 0 < comparefn x y -> R y x.
Hypothesis before : forall x y, comparefn x y <= 0 -> R x y.



End ArraySortFacts.

(** ** SessionList *)

Section SessionListFacts.
Import SessionStore SessionList.

Lemma truncateName_length (newName : string) :
  (String.length (truncateName newName) <= 28)%nat.
Proof.
  unfold truncateName, JsText.substring.
  destruct (Nat.ltb_spec 28 (String.length newName)) as [Hlong|Hshort]; [|exact Hshort].
  rewrite string_length_app, substring_prefix_length by lia. simpl. lia.
Qed.

(** Incoming sessions whose keys are all stored already: none is new. *)
Lemma newSessions_all_known (incoming existing : list Session) :
  (forall s, s ∈ incoming -> sessionId s ∈ existingSessionIds existing) ->
  newSessions incoming existing = [].
Proof.
  intros Hknown. unfold newSessions.
  induction incoming as [|s l IH]; simpl; [reflexivity|].
  rewrite bool_decide_eq_true_2 by (apply Hknown; now left). simpl.
  apply IH. intros x Hx. apply Hknown. now right.
Qed.

Lemma newSessions_none_stored (incoming : list Session) :
  newSessions incoming [] = incoming.
Proof.
  unfold newSessions, existingSessionIds. simpl.
  induction incoming as [|s l IH]; simpl; [reflexivity|].
  rewrite bool_decide_eq_false_2 by apply not_elem_of_empty. simpl. now rewrite IH.
Qed.

Lemma sessionId_stored (s : Session) (existing : list Session) :
  s ∈ existing -> sessionId s ∈ existingSessionIds existing.
Proof.
  intros Hin. unfold existingSessionIds. apply elem_of_list_to_set.
  now apply list_elem_of_fmap_2.
Qed.

Lemma length_pos_ltb {A} (l : list A) : l <> [] -> (0 <? length l)%nat = true.
Proof. destruct l; [contradiction | reflexivity]. Qed.

(** An accepted session bundle: what is stored and what is reported. *)
Lemma importSessions_accepted (v : Js.value unit) (sessions : list Session)
    (storage : option (list Session)) :
  Js.truthy v = true ->
  SnapshotCodec.importSessions
    (Some (SnapshotCodec.mkFile v (Js.Array sessions))) storage
  = (Some (newSessions sessions (default [] storage) ++ default [] storage),
     if (0 <? length sessions - length (newSessions sessions (default [] storage)))%nat
     then SnapshotCodec.ImportedSkipped
            (length (newSessions sessions (default [] storage)))
            (length sessions - length (newSessions sessions (default [] storage)))
     else SnapshotCodec.Imported).
Proof. intros Hv. unfold SnapshotCodec.importSessions. simpl. now rewrite Hv. Qed.

End SessionListFacts.

Section SessionListClaims.
Import SessionStore SessionList.

(** X1.  [deleteSession(index)] stores the list without its entry at
    [index]: the entries before it stay where they are, the entries after
    it move up by one place, and nothing changes when [index] is past the
    end.  Deleting at 0 right after [saveSession] gives the list that was
    stored before the save. *)
Theorem deleteSession_removes_entry_at_index :
  forall (index : nat) (storage : option (list Session)),
    exists left,
      deleteSession index storage = Some left
      /\ (forall j, (j < index)%nat -> left !! j = sessionsOf storage !! j)
      /\ (forall j, (index <= j)%nat -> left !! j = sessionsOf storage !! S j)
      /\ length left
         = (if (index <? length (sessionsOf storage))%nat
            then (length (sessionsOf storage) - 1)%nat
            else length (sessionsOf storage))
      /\ (forall now tabs,
             deleteSession 0 (saveSession now tabs storage) = Some (sessionsOf storage)).
Proof.
  intros index storage. eexists. split; [reflexivity|]. split; [|split; [|split]].
  - intros j Hj. now apply splice_lookup_before.
  - intros j Hj. rewrite splice_lookup_after by exact Hj. f_equal. lia.
  - apply splice_length.
  - intros now tabs. reflexivity.
Qed.

(** X2.  [confirmRename] writes to the storage only a name that is not
    empty, differs from the default label and has at most 28 code units:
    the trimmed text, cut to 25 code units and three dots when it is longer
    than 28.  The array written is the stored one with the session of the
    list item assigned at its index, which within the list replaces that
    one entry.  Without a write the session object is unchanged (the
    placeholder was showing) or its name is reset, and the text was blank
    or the default label: a cleared name is not written to the storage. *)
Theorem confirmRename_stored_name :
  forall (placeholder : bool) (textContent : string) (session : Session)
         (index : nat) (storage : option (list Session)),
    let r := confirmRename placeholder textContent session index storage in
    match written r with
    | Some array =>
        exists name,
          renamed r = withName session (Some name)
          /\ name = truncateName (JsText.trim textContent)
          /\ name <> EmptyString
          /\ name <> defaultLabel session
          /\ (String.length name <= 28)%nat
          /\ array = JsText.assignAt index (renamed r) (sessionsOf storage)
          /\ ((index < length (sessionsOf storage))%nat ->
              array = Some <$> <[index := renamed r]> (sessionsOf storage))
    | None =>
        (placeholder = true /\ renamed r = session)
        \/ (placeholder = false
            /\ renamed r = withName session None
            /\ (truncateName (JsText.trim textContent) = EmptyString
                \/ truncateName (JsText.trim textContent) = defaultLabel session))
    end.
Proof.
  intros placeholder textContent session index storage. unfold confirmRename.
  destruct placeholder; simpl; [now left|].
  destruct (String.eqb_spec (truncateName (JsText.trim textContent)) "") as [He|He]; simpl.
  { right. split; [reflexivity|]. split; [reflexivity|]. now left. }
  destruct (String.eqb_spec (truncateName (JsText.trim textContent)) (defaultLabel session))
    as [Hd|Hd]; simpl.
  { right. split; [reflexivity|]. split; [reflexivity|]. now right. }
  eexists. split; [reflexivity|]. split; [reflexivity|].
  split; [exact He|]. split; [exact Hd|]. split; [apply truncateName_length|].
  split; [reflexivity|]. intros Hi. now apply assignAt_in_range.
Qed.

(** A rename to a long name with blanks around it, at the second entry. *)
Example confirmRename_example :
  let s := mkSession 7 3 ["u"] None in
  let r := confirmRename false "   Reading list for the long weekend  " s 1
                         (Some [mkSession 9 1 ["v"] None; s]) in
  customName (renamed r) = Some "Reading list for the long..."
  /\ written r = Some [Some (mkSession 9 1 ["v"] None); Some (renamed r)]
  /\ written (confirmRename false "  3 tabs " s 1 (Some [s])) = None.
Proof. repeat split; vm_compute; reflexivity. Qed.

(** X3.  Importing the file that [exportSessions] wrote into the store it
    was written from changes nothing: every session is skipped, and the
    feedback counts none imported and all skipped. *)
Theorem exportSessions_then_importSessions_same_store :
  forall (now : Z) (storage : option (list Session)),
    sessionsOf storage <> [] ->
    exists exportData,
      exportSessions now storage = (Some exportData, Exported)
      /\ SnapshotCodec.importSessions (Some (fileOf exportData)) storage
         = (Some (sessionsOf storage),
            SnapshotCodec.ImportedSkipped 0 (length (sessionsOf storage))).
Proof.
  intros now storage Hne. unfold exportSessions.
  rewrite (proj2 (Nat.eqb_neq _ 0))
    by (destruct (sessionsOf storage); [contradiction | discriminate]).
  eexists. split; [reflexivity|].
  unfold fileOf. cbn [SessionList.version SessionList.sessions].
  rewrite importSessions_accepted by reflexivity.
  change (default [] storage) with (sessionsOf storage).
  rewrite (newSessions_all_known (sessionsOf storage) (sessionsOf storage))
    by (intros x Hx; now apply sessionId_stored).
  simpl. rewrite Nat.sub_0_r, (length_pos_ltb _ Hne). reflexivity.
Qed.

Lemma exportSessions_then_importSessions_same_store_witness :
  let storage := Some [mkSession 5 2 ["u"; "v"] None; mkSession 5 1 ["u"] (Some "x")] in
  sessionsOf storage <> []
  /\ exists exportData,
      exportSessions 9 storage = (Some exportData, Exported)
      /\ SnapshotCodec.importSessions (Some (fileOf exportData)) storage
         = (Some (sessionsOf storage),
            SnapshotCodec.ImportedSkipped 0 (length (sessionsOf storage))).
Proof.
  intros storage.
  assert (Hne : sessionsOf storage <> []) by discriminate.
  split; [exact Hne|].
  exact (exportSessions_then_importSessions_same_store 9 storage Hne).
Defined.

(** X4.  [exportSessions] writes no file when no session is stored.
    Otherwise importing the file it wrote into a store without sessions
    stores exactly the exported sessions, in their order, repeated keys
    included, and reports them imported. *)
Theorem exportSessions_then_importSessions_fresh_store :
  forall (now : Z) (storage : option (list Session)),
    (sessionsOf storage = [] -> exportSessions now storage = (None, NoSessions))
    /\ (sessionsOf storage <> [] ->
        exists exportData,
          exportSessions now storage = (Some exportData, Exported)
          /\ SnapshotCodec.importSessions (Some (fileOf exportData)) None
             = (Some (sessionsOf storage), SnapshotCodec.Imported)).
Proof.
  intros now storage. unfold exportSessions. split.
  - intros ->. reflexivity.
  - intros Hne.
    rewrite (proj2 (Nat.eqb_neq _ 0))
      by (destruct (sessionsOf storage); [contradiction | discriminate]).
    eexists. split; [reflexivity|].
    unfold fileOf. cbn [SessionList.version SessionList.sessions].
    rewrite importSessions_accepted by reflexivity.
    cbn [default]. rewrite newSessions_none_stored, app_nil_r, Nat.sub_diag.
    reflexivity.
Qed.

(** Two sessions with one key survive the way through the file. *)
Example exportSessions_example :
  let a := mkSession 5 2 ["u"; "v"] None in
  let b := mkSession 5 1 ["u"] (Some "x") in
  exportSessions 9 (Some [a; b]) = (Some (mkExportData 1 9 [a; b]), Exported)
  /\ SnapshotCodec.importSessions (Some (fileOf (mkExportData 1 9 [a; b]))) None
     = (Some [a; b], SnapshotCodec.Imported)
  /\ exportSessions 9 None = (None, NoSessions).
Proof. repeat split; vm_compute; reflexivity. Qed.

(** X5.  Importing an accepted session file a second time adds nothing:
    the store is left as the first import made it, and every session of
    the file is reported skipped. *)
Theorem importSessions_twice :
  forall (v : Js.value unit) (sessions : list Session) (storage : option (list Session)),
    Js.truthy v = true ->
    let file := Some (SnapshotCodec.mkFile v (Js.Array sessions)) in
    let first := SnapshotCodec.importSessions file storage in
    SnapshotCodec.importSessions file first.1
    = (first.1,
       if (0 <? length sessions)%nat
       then SnapshotCodec.ImportedSkipped 0 (length sessions)
       else SnapshotCodec.Imported).
Proof.
  intros v sessions storage Hv file first. subst file first.
  rewrite (importSessions_accepted v sessions storage Hv). cbn [fst].
  rewrite (importSessions_accepted v sessions _ Hv). cbn [default id].
  rewrite (newSessions_all_known sessions (newSessions sessions (default [] storage)
                                            ++ default [] storage)).
  - simpl. now rewrite Nat.sub_0_r.
  - intros s Hs. unfold existingSessionIds. apply elem_of_list_to_set.
    rewrite map_app, elem_of_app.
    destruct (decide (sessionId s ∈ existingSessionIds (default [] storage))) as [Hin|Hout].
    + right. unfold existingSessionIds in Hin. now apply elem_of_list_to_set in Hin.
    + left. apply list_elem_of_fmap_2. unfold newSessions.
      apply list_elem_of_In, filter_In. split; [now apply list_elem_of_In|].
      now rewrite bool_decide_eq_false_2.
Qed.

Lemma importSessions_twice_witness :
  let a := mkSession 5 2 ["u"; "v"] None in
  let b := mkSession 6 1 ["w"] None in
  let file := Some (SnapshotCodec.mkFile (Js.Number 1) (Js.Array [a; b; a])) in
  Js.truthy (Js.Number 1 : Js.value unit) = true
  /\ SnapshotCodec.importSessions file (Some [b])
     = (Some [a; a; b], SnapshotCodec.ImportedSkipped 2 1)
  /\ SnapshotCodec.importSessions file (SnapshotCodec.importSessions file (Some [b])).1
     = ((SnapshotCodec.importSessions file (Some [b])).1,
        SnapshotCodec.ImportedSkipped 0 3).
Proof.
  intros a b file. split; [reflexivity|]. split; [vm_compute; reflexivity|].
  exact (importSessions_twice (Js.Number 1) [a; b; a] (Some [b]) eq_refl).
Defined.

End SessionListClaims.

(** ** SessionView: the age of a session *)

Section DateFacts.
Import SessionView.

Lemma div_lt_iff (a k n : Z) : 0 < k -> a / k < n <-> a < k * n.
Proof.
  intros Hk. split.
  - intros H. destruct (Z_lt_le_dec a (k * n)) as [Hlt|Hge]; [exact Hlt|].
    apply Z.div_le_lower_bound in Hge; [lia | exact Hk].
  - now apply Z.div_lt_upper_bound.
Qed.

Lemma ltb_div (a k n : Z) : 0 < k -> (a / k <? n) = (a <? k * n).
Proof.
  intros Hk. destruct (Z.ltb_spec (a / k) n) as [H|H];
    destruct (Z.ltb_spec a (k * n)) as [H'|H']; try reflexivity.
  - apply (div_lt_iff a k n Hk) in H. lia.
  - apply (div_lt_iff a k n Hk) in H'. lia.
Qed.

(** The tests of [formatSessionDate], decided by the bounds at hand. *)
Local Ltac branches :=
  repeat match goal with
         | |- context [?a <? ?b] => destruct (Z.ltb_spec a b); try lia
         end;
  try reflexivity.

(** X6.  The label of [formatSessionDate] by the age [now - timestamp] in
    milliseconds: [Now] below one minute (and for timestamps ahead of the
    clock), whole minutes from 1 to 59 below one hour, whole hours from 1
    to 23 below one day, whole days from 1 to 6 below one week, whole weeks
    from 1 to 3 below four weeks, and from four weeks on the date of the
    host with its slashes turned into hyphens. *)
Theorem formatSessionDate_ranges :
  (forall (toLocaleDateString : Z -> string) (now timestamp : Z),
      let diff := now - timestamp in
      let label := formatSessionDate toLocaleDateString now timestamp in
      (diff < 60000 -> label = "Now")
      /\ (60000 <= diff < 3600000 ->
          label = pretty (diff / 60000) +:+ "m" /\ 1 <= diff / 60000 <= 59)
      /\ (3600000 <= diff < 86400000 ->
          label = pretty (diff / 3600000) +:+ "h" /\ 1 <= diff / 3600000 <= 23)
      /\ (86400000 <= diff < 604800000 ->
          label = pretty (diff / 86400000) +:+ "d" /\ 1 <= diff / 86400000 <= 6)
      /\ (604800000 <= diff < 2419200000 ->
          label = pretty (diff / 604800000) +:+ "w" /\ 1 <= diff / 604800000 <= 3)
      /\ (2419200000 <= diff ->
          label = JsText.replaceAll "/" "-" (toLocaleDateString timestamp)))
  /\ (let date := fun _ : Z => "05/01/2024" in
      formatSessionDate date 1704500000000 1704500059999 = "Now"
      /\ formatSessionDate date 1704500059999 1704500000000 = "Now"
      /\ formatSessionDate date 1704507199999 1704500000000 = "1h"
      /\ formatSessionDate date 1705104799999 1704500000000 = "6d"
      /\ formatSessionDate date 1706919199999 1704500000000 = "3w"
      /\ formatSessionDate date 1706919200000 1704500000000 = "05-01-2024").
Proof.
  split; [|repeat split; vm_compute; reflexivity].
  intros toLocaleDateString now timestamp diff label. subst label.
  unfold formatSessionDate. fold diff.
  assert (Hm : diff / 1000 / 60 = diff / 60000) by (rewrite Z.div_div by lia; reflexivity).
  assert (Hh : diff / 1000 / 60 / 60 = diff / 3600000)
    by (rewrite !Z.div_div by lia; reflexivity).
  assert (Hd : diff / 1000 / 60 / 60 / 24 = diff / 86400000)
    by (rewrite !Z.div_div by lia; reflexivity).
  assert (Hw : diff / 1000 / 60 / 60 / 24 / 7 = diff / 604800000)
    by (rewrite !Z.div_div by lia; reflexivity).
  rewrite Hw, Hd, Hh, Hm. rewrite !ltb_div by lia.
  assert (Hbounds : forall k lo hi, 0 < k -> k * lo <= diff < k * (hi + 1) ->
                                    lo <= diff / k <= hi).
  { intros k lo hi Hk [Hlo Hhi]. split.
    - now apply Z.div_le_lower_bound.
    - apply (div_lt_iff diff k (hi + 1) Hk) in Hhi. lia. }
  repeat split.
  - intros H. branches.
  - branches.
  - apply (Hbounds 60000 1 59); lia.
  - apply (Hbounds 60000 1 59); lia.
  - branches.
  - apply (Hbounds 3600000 1 23); lia.
  - apply (Hbounds 3600000 1 23); lia.
  - branches.
  - apply (Hbounds 86400000 1 6); lia.
  - apply (Hbounds 86400000 1 6); lia.
  - branches.
  - apply (Hbounds 604800000 1 3); lia.
  - apply (Hbounds 604800000 1 3); lia.
  - intros H. branches.
Qed.

End DateFacts.

(** ** SessionView: the most common domains *)

Section TopDomainFacts.
Import SessionView.

Variable new_URL : string -> option Url.URL.
Variable polluted : bool.











(** The order that the comparator [b - a] on the counts decides. *)
Definition moreCounted (a b : string * nat) : Prop := (b.2 <= a.2)%nat.

#[local] Instance moreCounted_trans : Transitive moreCounted.
Proof. intros a b c. unfold moreCounted. lia. Qed.








End TopDomainFacts.

Section TopDomainClaims.
Import SessionView.



(** A first domain longer than the limit hides every domain; a URL
    without a host is counted under the empty domain, and the text is
    empty when that is the only one; keys that are array indices come
    first among equally frequent domains. *)
Example getTopDomains_examples :
  getTopDomains Url.parse false
    ["https://averyveryverylongdomainnamethatgoesonandon.example/"; "https://c.com/"]
  = Some "No domains"
  /\ getTopDomains Url.parse false ["foo:bar"] = Some ""
  /\ getTopDomains Url.parse false ["foo://7/"; "foo://b/"; "foo://3/"] = Some "3, 7, b"
  /\ getTopDomains Url.parse false ["https://constructor/"] = None.
Proof. repeat split; vm_compute; reflexivity. Qed.




End TopDomainClaims.

(** ** TabShuffle *)

Section ShuffleFacts.
Import TabOrganizer TabShuffle.


Variable randomIndex : nat -> nat.
Hypothesis randomIndex_range : forall i, (randomIndex i <= i)%nat.



End ShuffleFacts.

Section ShuffleClaims.
Import TabOrganizer TabShuffle.



End ShuffleClaims.

(** ** TabOrganizer: what [closeDuplicates] leaves *)

Section SurvivorFacts.
Import TabOrganizer Expect.

Lemma elem_of_survivors (activeTab : Tab) (allTabs : list Tab) (tab : Tab) :
  tab ∈ survivors activeTab allTabs
  <-> tab ∈ allTabs /\ id tab ∉ tabsToClose activeTab allTabs.
Proof.
  unfold survivors. rewrite list_elem_of_In, filter_In, <- list_elem_of_In.
  rewrite negb_true_iff, bool_decide_eq_false. reflexivity.
Qed.

Lemma survivor_kept (activeTab : Tab) (allTabs : list Tab) (tab : Tab) :
  NoDup (map id allTabs) ->
  tab ∈ survivors activeTab allTabs ->
  uniqueURLs activeTab allTabs !! Js.toLowerCase (url tab) = Some tab.
Proof.
  intros Hnd Hin. apply elem_of_survivors in Hin as [Hin Hopen].
  destruct (inv_all activeTab allTabs _ (pass_inv_firstPass activeTab allTabs Hnd) tab Hin)
    as [Hc|Hk]; [contradiction | exact Hk].
Qed.

(** Tabs with pairwise distinct URLs: the pass marks none of them. *)
Lemma firstPass_distinct (activeTab : Tab) (tabs : list Tab)
    (st : gmap string Tab * list Z) :
  NoDup (map (fun tab => Js.toLowerCase (url tab)) tabs) ->
  (forall tab, tab ∈ tabs -> st.1 !! Js.toLowerCase (url tab) = None) ->
  (fold_left (markDuplicate activeTab) tabs st).2 = st.2.
Proof.
  revert st. induction tabs as [|tab rest IH]; intros [U C] Hnd Hfresh; simpl in *;
    [reflexivity|].
  apply NoDup_cons in Hnd as [Hnew Hnd].
  rewrite (Hfresh tab) by now left.
  rewrite IH; [reflexivity | exact Hnd |].
  intros t Ht. simpl. rewrite lookup_insert_ne.
  - apply Hfresh. now right.
  - intros Heq. apply Hnew. rewrite Heq.
    now apply (list_elem_of_fmap_2 (fun tab => Js.toLowerCase (url tab))).
Qed.

Lemma tabsToClose_distinct (activeTab : Tab) (tabs : list Tab) :
  NoDup (map (fun tab => Js.toLowerCase (url tab)) tabs) ->
  tabsToClose activeTab tabs = [].
Proof.
  intros Hnd. unfold tabsToClose, firstPass.
  rewrite (firstPass_distinct activeTab tabs (∅, []) Hnd); [reflexivity|].
  intros tab _. apply lookup_empty.
Qed.

Lemma survivors_distinct (activeTab : Tab) (allTabs : list Tab) :
  NoDup (map id allTabs) ->
  NoDup (map (fun tab => Js.toLowerCase (url tab)) (survivors activeTab allTabs)).
Proof.
  intros Hnd. apply NoDup_fmap_2_strong.
  - intros t u Ht Hu Heq.
    pose proof (survivor_kept activeTab allTabs t Hnd Ht) as Kt.
    pose proof (survivor_kept activeTab allTabs u Hnd Hu) as Ku.
    rewrite Heq, Ku in Kt. now injection Kt.
  - apply NoDup_List_filter. eapply NoDup_fmap_1. exact Hnd.
Qed.

(** Every URL of the tab list is the URL of a tab left open. *)
Lemma survivors_cover (activeTab : Tab) (allTabs : list Tab) (u : string) :
  NoDup (map id allTabs) ->
  u ∈ map (fun tab => Js.toLowerCase (url tab)) (survivors activeTab allTabs)
  <-> u ∈ map (fun tab => Js.toLowerCase (url tab)) allTabs.
Proof.
  intros Hnd. pose proof (pass_inv_firstPass activeTab allTabs Hnd) as Inv. split.
  - intros Hu. apply list_elem_of_fmap in Hu as (t & -> & Ht).
    apply elem_of_survivors in Ht as [Ht _].
    now apply (list_elem_of_fmap_2 (fun tab => Js.toLowerCase (url tab))).
  - intros Hu. apply (inv_dom _ _ _ Inv) in Hu as [t Ht].
    destruct (inv_kept _ _ _ Inv _ _ Ht) as [Hin <-].
    apply (list_elem_of_fmap_2 (fun tab => Js.toLowerCase (url tab))).
    apply elem_of_survivors. split; [exact Hin|].
    exact (inv_kept_open _ _ _ Inv _ _ Ht).
Qed.

Lemma NoDup_ids (ids : list Z) :
  bool_decide (NoDup ids) = true -> NoDup ids.
Proof. apply bool_decide_eq_true_1. Qed.

End SurvivorFacts.

Section SurvivorClaims.
Import TabOrganizer Expect.

(** X11.  With tab ids pairwise distinct, the tabs that [closeDuplicates]
    leaves open have pairwise distinct URLs up to letter case, and every
    URL that was open is still open in one of them: one tab is left per
    URL, and the active tab is among them. *)
Theorem closeDuplicates_leaves_one_tab_per_url :
  forall (allTabs : list Tab) (activeTab : Tab),
    NoDup (map id allTabs) ->
    let open := survivors activeTab allTabs in
    NoDup (map (fun tab => Js.toLowerCase (url tab)) open)
    /\ (forall u, u ∈ map (fun tab => Js.toLowerCase (url tab)) open
                  <-> u ∈ map (fun tab => Js.toLowerCase (url tab)) allTabs)
    /\ (activeTab ∈ allTabs -> activeTab ∈ open)
    /\ length open = length (distinctURLs allTabs).
Proof.
  intros allTabs activeTab Hnd open. subst open.
  pose proof (pass_inv_firstPass activeTab allTabs Hnd) as Inv.
  split; [now apply survivors_distinct|]. split; [|split].
  - intros u. now apply survivors_cover.
  - intros Hin. apply elem_of_survivors. split; [exact Hin|].
    exact (inv_active_open _ _ _ Inv).
  - rewrite <- (length_map (fun tab => Js.toLowerCase (url tab))).
    apply Permutation_length, NoDup_Permutation.
    + now apply survivors_distinct.
    + apply NoDup_remove_dups.
    + intros u. unfold distinctURLs. rewrite elem_of_remove_dups.
      now apply survivors_cover.
Qed.

Lemma closeDuplicates_leaves_one_tab_per_url_witness :
  let t1 := mkTab 1 "http://x.com/a" in
  let t2 := mkTab 2 "http://y.com/" in
  let t3 := mkTab 3 "http://X.com/a" in
  let t4 := mkTab 4 "http://x.com/A" in
  NoDup (map id [t1; t2; t3; t4])
  /\ survivors t3 [t1; t2; t3; t4] = [t2; t3]
  /\ NoDup (map (fun tab => Js.toLowerCase (url tab)) (survivors t3 [t1; t2; t3; t4]))
  /\ length (survivors t3 [t1; t2; t3; t4]) = length (distinctURLs [t1; t2; t3; t4]).
Proof.
  intros t1 t2 t3 t4.
  assert (Hnd : NoDup (map id [t1; t2; t3; t4])).
  { apply NoDup_ids. vm_compute. reflexivity. }
  split; [exact Hnd|]. split; [vm_compute; reflexivity|].
  pose proof (closeDuplicates_leaves_one_tab_per_url [t1; t2; t3; t4] t3 Hnd)
    as (H1 & _ & _ & H4).
  split; [exact H1 | exact H4].
Defined.

(** X12.  Run again on the tabs it left open, [closeDuplicates] closes
    nothing and calls the host for nothing, whichever tab is active. *)
Theorem closeDuplicates_second_run_closes_nothing :
  forall (allTabs : list Tab) (activeTab activeTab' : Tab),
    NoDup (map id allTabs) ->
    closeDuplicates activeTab' (survivors activeTab allTabs) = ([], 0%nat).
Proof.
  intros allTabs activeTab activeTab' Hnd. unfold closeDuplicates.
  now rewrite (tabsToClose_distinct activeTab' _ (survivors_distinct activeTab allTabs Hnd)).
Qed.

Lemma closeDuplicates_second_run_closes_nothing_witness :
  let t1 := mkTab 1 "http://x.com/a" in
  let t2 := mkTab 2 "http://y.com/" in
  let t3 := mkTab 3 "http://X.com/a" in
  NoDup (map id [t1; t2; t3])
  /\ closeDuplicates t3 [t1; t2; t3] = ([TabsRemove [1]; TabsActivate 3], 1%nat)
  /\ closeDuplicates t3 (survivors t3 [t1; t2; t3]) = ([], 0%nat).
Proof.
  intros t1 t2 t3.
  assert (Hnd : NoDup (map id [t1; t2; t3])).
  { apply NoDup_ids. vm_compute. reflexivity. }
  split; [exact Hnd|]. split; [vm_compute; reflexivity|].
  exact (closeDuplicates_second_run_closes_nothing [t1; t2; t3] t3 t3 Hnd).
Defined.



End SurvivorClaims.

(** ** TabOrganizer: errors, keys and contiguity of [groupTabs] *)

Section GroupingMoreFacts.
Import TabOrganizer.

Variable new_URL : string -> option Url.URL.

Lemma groupTab_thrown (tabs : list Tab) :
  fold_left (groupTab new_URL) tabs None = None.
Proof. induction tabs as [|t l IH]; simpl; [reflexivity | exact IH]. Qed.

Lemma firstPassGroups_unparsed (tabs : list Tab) (tab : Tab) :
  tab ∈ tabs -> new_URL (url tab) = None -> firstPassGroups new_URL tabs = None.
Proof.
  intros Hin Hurl. apply list_elem_of_split in Hin as (before & after & ->).
  unfold firstPassGroups. rewrite fold_left_app. simpl.
  replace (groupTab new_URL _ tab) with (@None Grouping); [apply groupTab_thrown|].
  unfold groupTab. destruct (fold_left _ before _); simpl; [now rewrite Hurl | reflexivity].
Qed.

Lemma bucket_outside (k : string * string) (tabs : list Tab)
    (ks : list (string * string)) :
  k ∉ ks ->
  List.filter (hasKey new_URL k)
              (flat_map (fun k' => List.filter (hasKey new_URL k') tabs) ks) = [].
Proof.
  induction ks as [|k' ks IH]; intros Hk; simpl; [reflexivity|].
  apply not_elem_of_cons in Hk as [Hne Hk].
  rewrite List.filter_app, (IH Hk), app_nil_r.
  rewrite (bucket_bucket new_URL k k' tabs). now destruct (decide (k = k')).
Qed.

Lemma groupByDomain_contiguous (tabs : list Tab) (k : string * string) :
  exists before after,
    groupByDomain new_URL tabs
    = before ++ List.filter (hasKey new_URL k) tabs ++ after
    /\ List.filter (hasKey new_URL k) before = []
    /\ List.filter (hasKey new_URL k) after = [].
Proof.
  rewrite groupByDomain_keysInOrder.
  pose proof (NoDup_keysInOrder new_URL tabs) as Hnd.
  destruct (decide (k ∈ keysInOrder new_URL tabs)) as [Hin|Hout].
  - apply list_elem_of_split in Hin as (ks1 & ks2 & Hks). rewrite Hks in *.
    apply NoDup_app in Hnd as (_ & Hdisj & Hnd2).
    apply NoDup_cons in Hnd2 as [Hk2 _].
    exists (flat_map (fun k' => List.filter (hasKey new_URL k') tabs) ks1),
           (flat_map (fun k' => List.filter (hasKey new_URL k') tabs) ks2).
    rewrite flat_map_app. simpl. split; [reflexivity|]. split.
    + apply bucket_outside. intros H1. apply (Hdisj k H1). now left.
    + now apply bucket_outside.
  - exists (flat_map (fun k' => List.filter (hasKey new_URL k') tabs)
                     (keysInOrder new_URL tabs)), [].
    rewrite (bucket_nil new_URL k tabs Hout). simpl. rewrite app_nil_r.
    split; [reflexivity|]. split; [now apply bucket_outside | reflexivity].
Qed.

End GroupingMoreFacts.

Section GroupingMoreClaims.
Import TabOrganizer.

(** X14.  When the URL of one tab does not parse, [groupTabs] computes no
    order at all: the pass throws, the error is logged and no tab is
    moved, the tabs whose URLs parse included. *)
Theorem groupTabs_unparsed_url_moves_nothing :
  forall (new_URL : string -> option Url.URL) (tabs : list Tab) (tab : Tab),
    tab ∈ tabs ->
    new_URL (url tab) = None ->
    groupTabs new_URL tabs = None.
Proof.
  intros new_URL tabs tab Hin Hurl. unfold groupTabs.
  now rewrite (firstPassGroups_unparsed new_URL tabs tab Hin Hurl).
Qed.

Lemma groupTabs_unparsed_url_moves_nothing_witness :
  let tabs := [mkTab 1 "https://b.com/"; mkTab 2 "no url at all"; mkTab 3 "https://a.com/"] in
  mkTab 2 "no url at all" ∈ tabs
  /\ Url.parse "no url at all" = None
  /\ groupTabs Url.parse tabs = None
  /\ groupTabs Url.parse [mkTab 1 "https://b.com/"; mkTab 3 "https://a.com/"]
     = Some [mkTab 3 "https://a.com/"; mkTab 1 "https://b.com/"].
Proof.
  intros tabs.
  assert (Hin : mkTab 2 "no url at all" ∈ tabs) by (right; left).
  assert (Hurl : Url.parse (url (mkTab 2 "no url at all")) = None)
    by (vm_compute; reflexivity).
  split; [exact Hin|]. split; [exact Hurl|].
  split; [|vm_compute; reflexivity].
  exact (groupTabs_unparsed_url_moves_nothing Url.parse tabs _ Hin Hurl).
Defined.

(** X15.  The two keys of [groupTabs] put the hostname back together: a
    hostname of at most two labels is its base domain, with an empty
    subdomain; a hostname of more labels is its subdomain, a dot and its
    base domain.  So two hostnames with the same base domain and the same
    subdomain, that one not empty, are the same hostname. *)
Theorem hostname_from_its_keys :
  (forall hostname : string,
      let labels := Url.splitOn (Url.isChar ".") hostname in
      ((length labels <= 2)%nat ->
       baseDomainOf hostname = hostname /\ subdomainOf hostname = EmptyString)
      /\ ((2 < length labels)%nat ->
          subdomainOf hostname +:+ "." +:+ baseDomainOf hostname = hostname))
  /\ (forall h1 h2 : string,
         subdomainOf h1 <> EmptyString ->
         subdomainOf h1 = subdomainOf h2 ->
         baseDomainOf h1 = baseDomainOf h2 ->
         h1 = h2)
  /\ (baseDomainOf "a.b.example.com" = "example.com"
      /\ subdomainOf "a.b.example.com" = "a.b"
      /\ baseDomainOf "localhost" = "localhost"
      /\ subdomainOf ".example.com" = subdomainOf "example.com").
Proof.
  assert (Hkeys : forall hostname : string,
             let labels := Url.splitOn (Url.isChar ".") hostname in
             ((length labels <= 2)%nat ->
              baseDomainOf hostname = hostname /\ subdomainOf hostname = EmptyString)
             /\ ((2 < length labels)%nat ->
                 subdomainOf hostname +:+ "." +:+ baseDomainOf hostname = hostname)).
  { intros hostname labels. unfold baseDomainOf, subdomainOf, lastTwo, butLastTwo.
    fold labels. split.
    - intros Hlen. replace (length labels - 2)%nat with 0%nat by lia.
      rewrite drop_0, take_0. split; [apply join_splitOn | reflexivity].
    - intros Hlen. rewrite <- join_app.
      + rewrite take_drop. apply join_splitOn.
      + intros H. apply (f_equal length) in H. rewrite length_take in H. simpl in H. lia.
      + intros H. apply (f_equal length) in H. rewrite length_drop in H. simpl in H. lia. }
  split; [exact Hkeys|]. split; [|repeat split; vm_compute; reflexivity].
  intros h1 h2 Hsub Hs Hb.
  assert (Hlong : forall h, subdomainOf h <> EmptyString ->
                            (2 < length (Url.splitOn (Url.isChar ".") h))%nat).
  { intros h Hh.
    destruct (Nat.ltb_spec 2 (length (Url.splitOn (Url.isChar ".") h))) as [Hl|Hl];
      [exact Hl|].
    now destruct (proj1 (Hkeys h) Hl) as [_ He]. }
  rewrite <- (proj2 (Hkeys h1) (Hlong h1 Hsub)).
  rewrite <- (proj2 (Hkeys h2) (Hlong h2 ltac:(now rewrite <- Hs))).
  now rewrite Hs, Hb.
Qed.

(** X16.  On a tab list none of whose keys names a property inherited from
    [Object.prototype], [groupTabs] puts the tabs of every key next to one
    another: the new order is some tabs of other keys, then the tabs of
    the key in their input order, then tabs of other keys. *)
Theorem groupTabs_makes_each_bucket_contiguous :
  forall (new_URL : string -> option Url.URL) (tabs : list Tab),
    ownKeysOnly new_URL tabs ->
    forall k : string * string,
      exists before after,
        groupTabs new_URL tabs
        = Some (before ++ List.filter (hasKey new_URL k) tabs ++ after)
        /\ List.filter (hasKey new_URL k) before = []
        /\ List.filter (hasKey new_URL k) after = [].
Proof.
  intros new_URL tabs Hown k.
  destruct (groupByDomain_contiguous new_URL tabs k) as (before & after & Heq & Hb & Ha).
  exists before, after. rewrite (groupTabs_groupByDomain new_URL tabs Hown), Heq.
  now split.
Qed.

Lemma groupTabs_makes_each_bucket_contiguous_witness :
  let tabs := [mkTab 1 "https://b.example.com/x"; mkTab 2 "https://a.org/";
               mkTab 3 "https://example.com/"; mkTab 4 "https://a.example.com/";
               mkTab 5 "https://b.example.com/y"; mkTab 6 "http://localhost:3000/"] in
  ownKeysOnly Url.parse tabs
  /\ List.filter (hasKey Url.parse ("example.com", "b")) tabs
     = [mkTab 1 "https://b.example.com/x"; mkTab 5 "https://b.example.com/y"]
  /\ exists before after,
      groupTabs Url.parse tabs
      = Some (before ++ List.filter (hasKey Url.parse ("example.com", "b")) tabs ++ after)
      /\ List.filter (hasKey Url.parse ("example.com", "b")) before = []
      /\ List.filter (hasKey Url.parse ("example.com", "b")) after = [].
Proof.
  intros tabs. split; [exact ownKeysOnly_example|].
  split; [vm_compute; reflexivity|].
  exact (groupTabs_makes_each_bucket_contiguous Url.parse tabs ownKeysOnly_example
           ("example.com", "b")).
Defined.

End GroupingMoreClaims.

(** ** UrlSanitizer and UrlOpener: lines, schemes and hostnames *)

Section LineFacts.
Import UrlSanitizer.







End LineFacts.


Section OpenerFacts.
Import UrlSanitizer UrlOpener.

Variable new_URL : string -> option Url.URL.









End OpenerFacts.

Section OpenerClaims.
Import UrlSanitizer UrlOpener.


(** A text with a script URL, a URL in capitals with parentheses in its
    query, and a host of one label. *)
Example openUrls_example :
  openUrls Url.parse (fun _ => true)
           "  javascript:alert(1) HTTPS://Example.org/a?b=(1) http://localhost/x  "
  = ([TabsCreate "https://example.org/a?b=1"], Opened 1)
  /\ openUrlsInNewWindow Url.parse (fun _ => true) "   " = ([], NoURLs).
Proof. split; vm_compute; reflexivity. Qed.


(** Three tabs copied and pasted: the page of the browser is left out. *)
Example copyTabURLs_example :
  let tabs := [TabOrganizer.mkTab 1 "https://a.com/x"; TabOrganizer.mkTab 2 "chrome://newtab/";
               TabOrganizer.mkTab 3 "http://b.org/"] in
  Clipboard.copyTabURLs tabs
  = "https://a.com/x" +:+ JsText.newline +:+ "chrome://newtab/" +:+ JsText.newline
    +:+ "http://b.org/"
  /\ extractUrls Url.parse (Clipboard.copyTabURLs tabs)
     = ["https://a.com/x"; "http://b.org/"].
Proof. split; vm_compute; reflexivity. Qed.



(** X20.  The key handler of the URL list never clicks the button that
    opens a new window: Enter with Ctrl or Cmd clicks the button of the
    current window whether Shift is held or not, and every other key
    clicks nothing. *)
Theorem urlList_shortcut_never_opens_new_window :
  forall e : KeyEvent,
    urlListKeydown e <> Some openUrlsNewWindowBtn
    /\ (urlListKeydown e = Some openUrlsBtn
        <-> key e = "Enter" /\ (ctrlKey e = true \/ metaKey e = true))
    /\ (urlListKeydown e = None
        <-> ~ (key e = "Enter" /\ (ctrlKey e = true \/ metaKey e = true))).
Proof.
  intros [k c m sh]. unfold urlListKeydown. simpl.
  destruct (String.eqb_spec k "Enter") as [->|Hk]; simpl.
  - destruct c, m, sh; simpl; repeat split; try discriminate;
      intuition (discriminate || auto).
  - repeat split; try discriminate; intuition (discriminate || auto).
Qed.

End OpenerClaims.

(** ** SnapshotCodec and SnapshotWriter: what a replay restores *)

Section RestoreFacts.
Import SnapshotCodec Expect.

Context {Host : Type} (host : Host -> Call -> Host * Reply).

Hypothesis Hanswers : answers host.

Lemma await_run (c : Call) (h : Host) (log : list Call) :
  isCreate c = false ->
  await Host host c (h, log) = (((host h c).1, log ++ [c]), Some Resolved).
Proof.
  intros Hc. unfold await. pose proof (Hanswers h c) as H.
  destruct (host h c) as [h' r]. simpl in *.
  destruct c; simpl in Hc; try discriminate; now subst r.
Qed.

(** A computation that completes and appends the calls [calls]. *)
Definition appends (m : Async Host unit) (calls : list Call) : Prop :=
  forall st, (m st).2 = Some tt /\ (m st).1.2 = st.2 ++ calls.

Lemma appends_ret : appends (SnapshotCodec.ret tt) [].
Proof. intros st. simpl. now rewrite app_nil_r. Qed.

Lemma appends_bind (m k : Async Host unit) (c1 c2 : list Call) :
  appends m c1 -> appends k c2 -> appends (m ;; k) (c1 ++ c2).
Proof.
  intros Hm Hk st. rewrite bind_run. destruct (Hm st) as [Hr Hl].
  destruct (m st) as [st' [[]|]]; simpl in *; [|discriminate].
  destruct (Hk st') as [Hr' Hl']. now rewrite Hr', Hl', Hl, app_assoc.
Qed.

Lemma appends_update (c : Call) :
  isCreate c = false -> appends (await Host host c ;; SnapshotCodec.ret tt) [c].
Proof.
  intros Hc [h log]. rewrite bind_run, (await_run c h log Hc). now simpl.
Qed.

Lemma appends_setState (windowData : WindowData) (window : HostWindow) :
  appends (setState Host host windowData window) (restoredState windowData window).
Proof.
  unfold setState, restoredState. destruct (isRecognisedState _).
  - now apply appends_update.
  - apply appends_ret.
Qed.

Lemma restoredPins_cons (tab : TabData) (rest : list TabData) (tabId : Z)
    (tabIds : list Z) :
  restoredPins (tab :: rest) (tabId :: tabIds)
  = (if pinned tab then [TabsUpdatePinned tabId] else []) ++ restoredPins rest tabIds.
Proof. unfold restoredPins. simpl. now destruct (pinned tab). Qed.

Lemma appends_pinTabs (window : HostWindow) (i : nat) (rest : list TabData) :
  (i + length rest <= length (windowTabs window))%nat ->
  appends (pinTabs Host host window i rest)
          (restoredPins rest (drop i (windowTabs window))).
Proof.
  revert i. induction rest as [|tab rest IH]; intros i Hlen.
  - apply appends_ret.
  - simpl in Hlen.
    destruct (lookup_lt_is_Some_2 (windowTabs window) i ltac:(lia)) as [tabId Hi].
    rewrite (drop_S _ _ _ Hi), restoredPins_cons.
    cbn [pinTabs]. apply appends_bind; [|apply IH; lia].
    destruct (pinned tab); [|apply appends_ret].
    unfold tabIdAt. rewrite Hi.
    intros st. exact (appends_update (TabsUpdatePinned tabId) eq_refl st).
Qed.

Lemma appends_setActive (windowData : WindowData) (window : HostWindow) :
  length (windowTabs window) = length (tabs windowData) ->
  appends (setActive Host host windowData window) (restoredActive windowData window).
Proof.
  intros Hlen. unfold setActive, restoredActive.
  destruct (list_find _ _) as [[i tab]|] eqn:Hfind; [|apply appends_ret].
  apply list_find_Some in Hfind as (Hi & _ & _). apply lookup_lt_Some in Hi.
  destruct (lookup_lt_is_Some_2 (windowTabs window) i ltac:(lia)) as [tabId Ht].
  unfold tabIdAt. rewrite Ht.
  intros st. exact (appends_update (TabsUpdateActive tabId) eq_refl st).
Qed.

Lemma replayWindow_restores (windowData : WindowData) (h h' : Host)
    (log : list Call) (window : HostWindow) :
  host h (createCall windowData) = (h', Created window) ->
  (replayWindow Host host windowData (h, log)).2 = Some tt
  /\ (replayWindow Host host windowData (h, log)).1.2
     = log ++ createCall windowData
           :: restoredState windowData window
           ++ restoredPins (tabs windowData) (windowTabs window)
           ++ restoredActive windowData window.
Proof.
  intros Hcreate.
  assert (Hlen : length (windowTabs window) = length (tabs windowData)).
  { pose proof (Hanswers h (createCall windowData)) as (w & Hw & Hl).
    rewrite Hcreate in Hw. simpl in Hw. injection Hw as <-.
    now rewrite length_map in Hl. }
  assert (Hrun : replayWindow Host host windowData (h, log)
                 = (setState Host host windowData window ;;
                    pinTabs Host host window 0 (tabs windowData) ;;
                    setActive Host host windowData window)
                     (h', log ++ [createCall windowData])).
  { unfold replayWindow. rewrite bind_run. unfold await at 1. now rewrite Hcreate. }
  assert (Hk : appends (setState Host host windowData window ;;
                        pinTabs Host host window 0 (tabs windowData) ;;
                        setActive Host host windowData window)
                       (restoredState windowData window
                        ++ restoredPins (tabs windowData) (windowTabs window)
                        ++ restoredActive windowData window)).
  { apply appends_bind; [apply appends_setState|].
    apply appends_bind; [|now apply appends_setActive].
    pose proof (appends_pinTabs window 0 (tabs windowData)) as Hpin.
    rewrite drop_0 in Hpin. apply Hpin. simpl. lia. }
  rewrite Hrun.
  destruct (Hk (h', log ++ [createCall windowData])) as [Hr Hl].
  split; [exact Hr|]. rewrite Hl. simpl. now rewrite <- app_assoc.
Qed.

End RestoreFacts.

Section RestoreClaims.
Import SnapshotCodec Expect.

(** X21.  The file that [generateURLList] writes always passes the format
    test of [importTabs], also when no window is open, and the import of
    it asks the host for one window per exported window, in their order,
    with the URLs of its tabs in their order and its focus flag, whatever
    the host answers; the response is a success. *)
Theorem generateURLList_then_importTabs :
  forall Host (host : Host -> Call -> Host * Reply) (now : string)
         (windows : list SnapshotWriter.BrowserWindow) (st : Host * list Call),
    let file := Some (SnapshotWriter.fileOf (SnapshotWriter.generateURLList now windows)) in
    (importTabs Host host file st).2 = Success
    /\ List.filter isCreate (importTabs Host host file st).1.2
       = List.filter isCreate st.2
         ++ map (fun win =>
                   WindowsCreate (map SnapshotWriter.url (SnapshotWriter.tabs win))
                                 (SnapshotWriter.focused win))
                windows.
Proof.
  intros Host host now windows st file. subst file.
  unfold importTabs, SnapshotWriter.fileOf, SnapshotWriter.generateURLList. simpl.
  split; [reflexivity|]. rewrite createWindows_creates. f_equal.
  unfold SnapshotWriter.windowsData. rewrite map_map. apply map_ext. intros win.
  unfold createCall. simpl. now rewrite map_map.
Qed.

(** Two windows exported and imported on a host that accepts every call. *)
Example generateURLList_example :
  let w1 := SnapshotWriter.mkBrowserWindow 70 true "fullscreen"
              [SnapshotWriter.mkBrowserTab 71 "https://a.com/" false true "a";
               SnapshotWriter.mkBrowserTab 72 "https://b.com/" true true "b"] in
  let w2 := SnapshotWriter.mkBrowserWindow 80 false "minimized"
              [SnapshotWriter.mkBrowserTab 81 "https://c.com/" true false "c"] in
  importTabs Z acceptingHost
             (Some (SnapshotWriter.fileOf
                      (SnapshotWriter.generateURLList "2024-01-05T10:00:00.000Z" [w1; w2])))
             (10, [])
  = ((15, [WindowsCreate ["https://a.com/"; "https://b.com/"] true;
           TabsUpdatePinned 11; TabsUpdatePinned 12;
           TabsUpdateActive 12;
           WindowsCreate ["https://c.com/"] false;
           WindowsUpdate 13 "minimized";
           TabsUpdateActive 14]),
     Success).
Proof. vm_compute. reflexivity. Qed.

(** X22.  On a host that answers its calls, the replay of a window
    completes and issues, after the creation, exactly these calls in this
    order: the state update when the lower-cased state is recognised; one
    pin for every pinned entry, on the tab that the host created at the
    position of the entry; and one activation, of the tab at the position
    of the first active entry, when there is one. *)
Theorem replayWindow_restores_pins_and_focus :
  forall Host (host : Host -> Call -> Host * Reply),
    answers host ->
    forall (windowData : WindowData) (h h' : Host) (log : list Call) (window : HostWindow),
      host h (createCall windowData) = (h', Created window) ->
      (replayWindow Host host windowData (h, log)).2 = Some tt
      /\ (replayWindow Host host windowData (h, log)).1.2
         = log ++ createCall windowData
               :: restoredState windowData window
               ++ restoredPins (tabs windowData) (windowTabs window)
               ++ restoredActive windowData window.
Proof.
  intros Host host Hans windowData h h' log window Hcreate.
  now apply (replayWindow_restores host Hans windowData h h' log window).
Qed.

Lemma replayWindow_restores_pins_and_focus_witness :
  let w := mkWindowData true "Maximized"
             [mkTabData "https://a.com/" false true "a";
              mkTabData "https://b.com/" true false "b";
              mkTabData "https://c.com/" true true "c"] in
  let window := mkHostWindow 10 [11; 12; 13] in
  answers acceptingHost
  /\ acceptingHost 10 (createCall w) = (14, Created window)
  /\ restoredState w window ++ restoredPins (tabs w) (windowTabs window)
     ++ restoredActive w window
     = [WindowsUpdate 10 "maximized"; TabsUpdatePinned 11; TabsUpdatePinned 13;
        TabsUpdateActive 12]
  /\ (replayWindow Z acceptingHost w (10, [])).2 = Some tt
  /\ (replayWindow Z acceptingHost w (10, [])).1.2
     = [] ++ createCall w
          :: restoredState w window
          ++ restoredPins (tabs w) (windowTabs window)
          ++ restoredActive w window.
Proof.
  intros w window. split; [exact answers_acceptingHost|].
  assert (Hcreate : acceptingHost 10 (createCall w) = (14, Created window))
    by (vm_compute; reflexivity).
  split; [exact Hcreate|]. split; [vm_compute; reflexivity|].
  exact (replayWindow_restores_pins_and_focus Z acceptingHost answers_acceptingHost
           w 10 14 [] window Hcreate).
Defined.

(** X23.  A window that the host does not create costs one call and
    nothing else: no update is issued for it, and the windows after it
    are replayed from the state the host is left in, as if it had not
    been in the file. *)
Theorem createWindows_skips_refused_window :
  forall Host (host : Host -> Call -> Host * Reply)
         (windowData : WindowData) (rest : list WindowData)
         (h h' : Host) (log : list Call) (r : Reply),
    host h (createCall windowData) = (h', r) ->
    (forall window, r <> Created window) ->
    createWindows Host host (windowData :: rest) (h, log)
    = createWindows Host host rest (h', log ++ [createCall windowData]).
Proof.
  intros Host host windowData rest h h' log r Hcreate Hr. simpl.
  rewrite bind_run. unfold catch at 1. unfold replayWindow. rewrite bind_run.
  unfold await at 1. rewrite Hcreate.
  destruct r as [| |window]; try reflexivity.
  now destruct (Hr window).
Qed.

Lemma createWindows_skips_refused_window_witness :
  let refusing := fun (h : Z) (c : Call) =>
                    match c with
                    | WindowsCreate ("https://blocked.example/" :: _) _ => (h, Rejected)
                    | _ => acceptingHost h c
                    end in
  let w1 := mkWindowData true "normal"
              [mkTabData "https://blocked.example/" true true "x"] in
  let w2 := mkWindowData false "normal" [mkTabData "https://a.com/" true false "a"] in
  refusing 10 (createCall w1) = (10, Rejected)
  /\ (forall window, Rejected <> Created window)
  /\ createWindows Z refusing [w1; w2] (10, [])
     = createWindows Z refusing [w2] (10, [] ++ [createCall w1])
  /\ createWindows Z refusing [w1; w2] (10, [])
     = ((12, [WindowsCreate ["https://blocked.example/"] true;
              WindowsCreate ["https://a.com/"] false;
              WindowsUpdate 10 "normal";
              TabsUpdateActive 11]),
        Some tt).
Proof.
  intros refusing w1 w2.
  assert (Hcreate : refusing 10 (createCall w1) = (10, Rejected)) by reflexivity.
  assert (Hr : forall window, Rejected <> Created window) by discriminate.
  split; [exact Hcreate|]. split; [exact Hr|].
  split; [|vm_compute; reflexivity].
  exact (createWindows_skips_refused_window Z refusing w1 [w2] 10 10 [] Rejected
           Hcreate Hr).
Defined.

End RestoreClaims.
